(** * English tutor voice client: transcript reconciliation, playback
      scheduling and session orchestration

    A shallow embedding of the two session hooks of the client,
    [src/hooks/useGeminiLive.ts] (the streaming backend) and
    [src/hooks/useGptTutor.ts] (the recognition-plus-completion
    fallback backend), together with the data types of [src/types.ts].

    Conventions of the embedding.
    - A React state cell ([useState]) and a ref ([useRef]) are fields of
      a state record; [setX (prev => f prev)] applies [f] to the field.
      Updaters are applied in the order in which they are queued.
    - Every call of [Date.now()] is an explicit argument: the source
      reads the clock once for the [id] of a turn and once more for its
      [timestamp].
    - JavaScript numbers that carry audio samples or times of the
      audio clock are binary64 floats ([PrimFloat]); a time that the
      platform supplies ([currentTime], the [duration] of a buffer)
      comes with the fact that it is a number and not negative.
    - A string is the UTF-8 text of the JavaScript string.
    - A closure that captures a variable of the render in which it was
      created carries the captured value as a field.
    - An effect ([useEffect]) that copies a cell into a ref runs with
      the render that follows the change of the cell; where a callback
      of the platform can run before that render, the render is a step
      of its own. *)

From Stdlib Require Import ZArith Lia PrimFloat Uint63 Floats.
From stdpp Require Import base option list strings pretty gmap.

Local Open Scope string_scope.
Local Open Scope list_scope.

(** ** [src/types.ts] *)

Inductive ConnectionState : Set :=
  | DISCONNECTED
  | CONNECTING
  | CONNECTED
  | ERROR.

(** The union type ['user' | 'model'] of [ChatMessage.role]. *)
Inductive Role : Set :=
  | user
  | model.

#[global] Instance ConnectionState_eq_dec : EqDecision ConnectionState.
Proof. solve_decision. Defined.

#[global] Instance Role_eq_dec : EqDecision Role.
Proof. solve_decision. Defined.

Record ChatMessage : Set := mkChatMessage {
  id : string;
  role : Role;
  text : string;
  isComplete : bool;
  timestamp : N
}.

#[global] Instance ChatMessage_eq_dec : EqDecision ChatMessage.
Proof. solve_decision. Defined.

(** [{ ...msg, text }] *)
Definition with_text (msg : ChatMessage) (t : string) : ChatMessage :=
  {| id := id msg; role := role msg; text := t;
     isComplete := isComplete msg; timestamp := timestamp msg |}.

(** [{ ...msg, text, isComplete: true }] *)
Definition with_text_complete (msg : ChatMessage) (t : string) : ChatMessage :=
  {| id := id msg; role := role msg; text := t;
     isComplete := true; timestamp := timestamp msg |}.

(** [Date.now().toString()]: the decimal numeral of the clock reading. *)
Definition toString (now : N) : string := pretty now.

(** ** The transcript reducers

    [updateStreamingMessage] and [commitMessage] are the functions
    passed to [setMessages]; both hooks define them with the same text
    ([useGeminiLive.ts] 247-298, [useGptTutor.ts] 256-300). *)

(** The two readings of [Date.now()] made when a new turn is built: the
    first becomes its [id], the second its [timestamp]. *)
Record Stamp : Set := mkStamp {
  idNow : N;
  tsNow : N
}.

Module Transcript.

(** [prev.slice(0, -1)] *)
Definition slice_init (prev : list ChatMessage) : list ChatMessage :=
  removelast prev.

(** [last && last.role === role && !last.isComplete], with
    [last = prev[prev.length - 1]]. *)
Definition pending_tail (r : Role) (prev : list ChatMessage) : option ChatMessage :=
  match last prev with
  | Some l => if bool_decide (role l = r) && negb (isComplete l) then Some l else None
  | None => None
  end.

(** The object literal of a new turn. *)
Definition new_turn (now : Stamp) (r : Role) (t : string) (complete : bool)
    : ChatMessage :=
  {| id := toString (idNow now); role := r; text := t;
     isComplete := complete; timestamp := tsNow now |}.

Definition updateStreamingMessage (now : Stamp) (r : Role) (t : string)
    (prev : list ChatMessage) : list ChatMessage :=
  match pending_tail r prev with
  | Some l => slice_init prev ++ [with_text l t]
  | None => prev ++ [new_turn now r t false]
  end.

Definition commitMessage (now : Stamp) (r : Role) (t : string)
    (prev : list ChatMessage) : list ChatMessage :=
  match pending_tail r prev with
  | Some l => slice_init prev ++ [with_text_complete l t]
  | None => prev ++ [new_turn now r t true]
  end.

(** One call of a reducer, with its clock readings. *)
Inductive Op : Set :=
  | Partial (now : Stamp) (r : Role) (t : string)
  | Commit (now : Stamp) (r : Role) (t : string).

Definition apply_op (o : Op) (prev : list ChatMessage) : list ChatMessage :=
  match o with
  | Partial now r t => updateStreamingMessage now r t prev
  | Commit now r t => commitMessage now r t prev
  end.

(** The calls of [ops] applied from left to right. *)
Definition run (ops : list Op) (prev : list ChatMessage) : list ChatMessage :=
  foldl (fun acc o => apply_op o acc) prev ops.

(** The speaker of a call, the turn that the call puts in the place of
    a pending tail [last] of that speaker ([{ ...last, text }] or
    [{ ...last, text, isComplete: true }]), and the turn that it
    appends otherwise. *)
Definition op_role (o : Op) : Role :=
  match o with
  | Partial _ r _ => r
  | Commit _ r _ => r
  end.

Definition op_rewrite (o : Op) (last : ChatMessage) : ChatMessage :=
  match o with
  | Partial _ _ t => with_text last t
  | Commit _ _ t => with_text_complete last t
  end.

Definition op_append (o : Op) : ChatMessage :=
  match o with
  | Partial now r t => new_turn now r t false
  | Commit now r t => new_turn now r t true
  end.

(** The number of completed turns of a transcript. *)
Definition completed (msgs : list ChatMessage) : nat :=
  length (filter (fun m => isComplete m = true) msgs).

(** Shapes of a transcript. In the first, every turn but the tail
    is complete, so that at most one turn is pending and it is the
    tail. *)
Definition single_pending_at_tail (msgs : list ChatMessage) : bool :=
  forallb isComplete (slice_init msgs).

(** An incomplete turn is never directly followed by a turn of the
    same speaker. *)
Fixpoint handover_ok (msgs : list ChatMessage) : bool :=
  match msgs with
  | m :: rest =>
      match rest with
      | m' :: _ => isComplete m || negb (bool_decide (role m = role m'))
      | [] => true
      end && handover_ok rest
  | [] => true
  end.

(** [n] calls of [updateStreamingMessage] for one speaker. *)
Definition partials (r : Role) (calls : list (Stamp * string)) : list Op :=
  map (fun c => Partial (fst c) r (snd c)) calls.

(** Every completed turn of [old] is a turn of [new], unchanged and
    at the same position. *)
Definition keeps_complete (old new : list ChatMessage) : Prop :=
  forall i m, old !! i = Some m -> isComplete m = true -> new !! i = Some m.

(** Every turn of [old] has a turn of [new] at its position with the
    same [id] and [role]. *)
Definition keeps_identity (old new : list ChatMessage) : Prop :=
  forall i m, old !! i = Some m ->
    exists m', new !! i = Some m' /\ id m' = id m /\ role m' = role m.

(** The clock reading from which a call would make the [id] of a new
    turn. *)
Definition op_stamp (o : Op) : N :=
  match o with
  | Partial now _ _ => idNow now
  | Commit now _ _ => idNow now
  end.

End Transcript.

(** ** Platform values that both hooks use *)

(** The result of [navigator.mediaDevices.getUserMedia]. *)
Inductive MicResult : Set :=
  | MicGranted
  | MicDenied.

(** JavaScript truthiness of a string: the empty string is falsy. *)
Definition nonempty (s : string) : bool :=
  match s with
  | EmptyString => false
  | String _ _ => true
  end.

(** The volume loop that both [onaudioprocess] handlers contain:
    [sum += inputData[i] * inputData[i]] over the frame. *)
Definition sum_squares (inputData : list float) : float :=
  foldl (fun sum x => (sum + x * x)%float) 0%float inputData.

(** [Math.sqrt(sum / inputData.length)] *)
Definition rms (inputData : list float) : float :=
  PrimFloat.sqrt
    (sum_squares inputData
     / PrimFloat.of_uint63 (Uint63.of_Z (Z.of_nat (length inputData))))%float.

(** A time in seconds that the Web Audio API supplies: a binary64
    number that is not negative (and so not NaN). *)
Record Seconds : Set := mkSeconds {
  seconds : float;
  seconds_nonneg : (0 <=? seconds)%float = true
}.

(** [Math.max(a, b)]: NaN when either argument is NaN, and of the two
    zeros the positive one. *)
Definition Math_max (a b : float) : float :=
  if is_nan a || is_nan b then nan
  else if (a <? b)%float then b
  else if (b <? a)%float then a
  else if is_zero a && get_sign a then b
  else a.

(** A binary64 value, as the specification of the format sees it, is
    a number and not negative. *)
Definition sf_nonneg (x : spec_float) : bool :=
  match x with
  | S754_nan => false
  | S754_zero _ => true
  | S754_infinity s => negb s
  | S754_finite s _ _ => negb s
  end.

(** ** The streaming backend: [src/hooks/useGeminiLive.ts] *)
Module GeminiLive.

(** A decoded [AudioBuffer], of which the hook reads the [duration]
    that the Web Audio API computed for it. *)
Record AudioBuffer : Set := mkAudioBuffer {
  bufferDuration : Seconds
}.

(** [audioBuffer.duration] *)
Definition duration (b : AudioBuffer) : float := seconds (bufferDuration b).

(** An [AudioBufferSourceNode]; nodes are told apart by the order in
    which [createBufferSource] made them. *)
Definition SourceNode : Set := nat.

(** A call [source.start(when)] with the buffer of the source. *)
Record Started : Set := mkStarted {
  node : SourceNode;
  when : float;
  buffer : AudioBuffer
}.

(** The script processor made by [onopen]. Its [onaudioprocess]
    handler is a closure of the [connect] callback, so the handler
    holds the value [isMicOn] had in the render that built that
    callback ([useCallback] with dependencies [apiKey, isMicOn]). *)
Record Processor : Set := mkProcessor {
  handlerMicOn : bool
}.

(** The state cells and refs of the hook, followed by the record of
    what the hook did to the platform: sources started and stopped,
    payloads handed to [session.sendRealtimeInput], and the script
    processor that [onopen] put into the audio graph. The hook never
    takes the handler off that node, so the node outlives the ref that
    [disconnect] clears. *)
Record State : Type := mkState {
  connectionState : ConnectionState;
  messages : list ChatMessage;
  volume : float;
  isMicOn : bool;
  apiKey : string;
  inputContextRef : bool;
  outputContextRef : bool;
  scriptProcessorRef : option Processor;
  streamRef : bool;
  sessionPromiseRef : bool;
  nextStartTimeRef : float;
  audioSourcesRef : gset SourceNode;
  currentInputTranscription : string;
  currentOutputTranscription : string;
  started : list Started;
  stopped : list SourceNode;
  sent : list string;
  processorNode : option Processor
}.

Definition initial (key : string) : State :=
  {| connectionState := DISCONNECTED; messages := []; volume := 0%float;
     isMicOn := true; apiKey := key;
     inputContextRef := false; outputContextRef := false;
     scriptProcessorRef := None; streamRef := false;
     sessionPromiseRef := false; nextStartTimeRef := 0%float;
     audioSourcesRef := ∅;
     currentInputTranscription := ""; currentOutputTranscription := "";
     started := []; stopped := []; sent := []; processorNode := None |}.

Definition setConnectionState (c : ConnectionState) (st : State) : State :=
  mkState c (messages st) (volume st) (isMicOn st) (apiKey st)
    (inputContextRef st) (outputContextRef st) (scriptProcessorRef st)
    (streamRef st) (sessionPromiseRef st) (nextStartTimeRef st)
    (audioSourcesRef st) (currentInputTranscription st)
    (currentOutputTranscription st) (started st) (stopped st) (sent st)
    (processorNode st).

Definition setMessages (f : list ChatMessage -> list ChatMessage) (st : State) : State :=
  mkState (connectionState st) (f (messages st)) (volume st) (isMicOn st) (apiKey st)
    (inputContextRef st) (outputContextRef st) (scriptProcessorRef st)
    (streamRef st) (sessionPromiseRef st) (nextStartTimeRef st)
    (audioSourcesRef st) (currentInputTranscription st)
    (currentOutputTranscription st) (started st) (stopped st) (sent st)
    (processorNode st).

Definition setVolume (v : float) (st : State) : State :=
  mkState (connectionState st) (messages st) v (isMicOn st) (apiKey st)
    (inputContextRef st) (outputContextRef st) (scriptProcessorRef st)
    (streamRef st) (sessionPromiseRef st) (nextStartTimeRef st)
    (audioSourcesRef st) (currentInputTranscription st)
    (currentOutputTranscription st) (started st) (stopped st) (sent st)
    (processorNode st).

Definition setIsMicOn (f : bool -> bool) (st : State) : State :=
  mkState (connectionState st) (messages st) (volume st) (f (isMicOn st)) (apiKey st)
    (inputContextRef st) (outputContextRef st) (scriptProcessorRef st)
    (streamRef st) (sessionPromiseRef st) (nextStartTimeRef st)
    (audioSourcesRef st) (currentInputTranscription st)
    (currentOutputTranscription st) (started st) (stopped st) (sent st)
    (processorNode st).

(** Assignment to the refs of the audio input side. *)
Definition set_input (ctx : bool) (proc : option Processor) (stream : bool)
    (st : State) : State :=
  mkState (connectionState st) (messages st) (volume st) (isMicOn st) (apiKey st)
    ctx (outputContextRef st) proc stream (sessionPromiseRef st)
    (nextStartTimeRef st) (audioSourcesRef st) (currentInputTranscription st)
    (currentOutputTranscription st) (started st) (stopped st) (sent st)
    (processorNode st).

Definition set_outputContextRef (ctx : bool) (st : State) : State :=
  mkState (connectionState st) (messages st) (volume st) (isMicOn st) (apiKey st)
    (inputContextRef st) ctx (scriptProcessorRef st) (streamRef st)
    (sessionPromiseRef st) (nextStartTimeRef st) (audioSourcesRef st)
    (currentInputTranscription st) (currentOutputTranscription st)
    (started st) (stopped st) (sent st) (processorNode st).

Definition set_sessionPromiseRef (p : bool) (st : State) : State :=
  mkState (connectionState st) (messages st) (volume st) (isMicOn st) (apiKey st)
    (inputContextRef st) (outputContextRef st) (scriptProcessorRef st)
    (streamRef st) p (nextStartTimeRef st) (audioSourcesRef st)
    (currentInputTranscription st) (currentOutputTranscription st)
    (started st) (stopped st) (sent st) (processorNode st).

(** Assignment to the refs and the record of the playback side. *)
Definition set_playback (clock : float) (sources : gset SourceNode)
    (st' : list Started) (sp : list SourceNode) (st : State) : State :=
  mkState (connectionState st) (messages st) (volume st) (isMicOn st) (apiKey st)
    (inputContextRef st) (outputContextRef st) (scriptProcessorRef st)
    (streamRef st) (sessionPromiseRef st) clock sources
    (currentInputTranscription st) (currentOutputTranscription st)
    st' sp (sent st) (processorNode st).

Definition set_transcriptions (input output : string) (st : State) : State :=
  mkState (connectionState st) (messages st) (volume st) (isMicOn st) (apiKey st)
    (inputContextRef st) (outputContextRef st) (scriptProcessorRef st)
    (streamRef st) (sessionPromiseRef st) (nextStartTimeRef st)
    (audioSourcesRef st) input output (started st) (stopped st) (sent st)
    (processorNode st).

Definition set_sent (s : list string) (st : State) : State :=
  mkState (connectionState st) (messages st) (volume st) (isMicOn st) (apiKey st)
    (inputContextRef st) (outputContextRef st) (scriptProcessorRef st)
    (streamRef st) (sessionPromiseRef st) (nextStartTimeRef st)
    (audioSourcesRef st) (currentInputTranscription st)
    (currentOutputTranscription st) (started st) (stopped st) s
    (processorNode st).

(** The node that [createScriptProcessor] made and that [onopen]
    connected. *)
Definition set_processorNode (proc : option Processor) (st : State) : State :=
  mkState (connectionState st) (messages st) (volume st) (isMicOn st) (apiKey st)
    (inputContextRef st) (outputContextRef st) (scriptProcessorRef st)
    (streamRef st) (sessionPromiseRef st) (nextStartTimeRef st)
    (audioSourcesRef st) (currentInputTranscription st)
    (currentOutputTranscription st) (started st) (stopped st) (sent st) proc.

(** What a call of [connect] closes over: [isMicOn] of the render
    that built the callback. Every callback made by that call
    ([onopen], [onaudioprocess]) reads this value. *)
Record ConnectEnv : Set := mkConnectEnv {
  envMicOn : bool
}.

(** The fields of [message.serverContent] that [onmessage] reads;
    [None] is [undefined]. *)
Record LiveServerMessage : Set := mkLiveServerMessage {
  base64Audio : option string;
  outputText : option string;
  inputText : option string;
  turnComplete : bool;
  interrupted : bool
}.

(** The clocks read while one message is handled: [ctx.currentTime]
    and the readings of [Date.now()] of each reducer call. *)
Record MessageClock : Set := mkMessageClock {
  currentTime : Seconds;
  atOutput : Stamp;
  atInput : Stamp;
  atCommitInput : Stamp;
  atCommitOutput : Stamp;
  atInterrupt : Stamp
}.

(** Truthiness of an optional string: [undefined] is falsy too. *)
Definition truthy (o : option string) : option string :=
  match o with
  | Some s => if nonempty s then Some s else None
  | None => None
  end.

Section Handlers.

(** [utils/audioUtils.ts] is not among the sources; its functions
    are parameters. [float32ToPCM16 inputData] stands for the
    [base64] field of the result, and [pcmToAudioBuffer data] for
    [pcmToAudioBuffer(decodeBase64(data), ctx)]. *)
Variable float32ToPCM16 : list float -> string.
Variable pcmToAudioBuffer : string -> AudioBuffer.

(** [audioSourcesRef.current.forEach(s => s.stop())] and
    [audioSourcesRef.current.clear()]. *)
Definition stop_sources (st : State) : State :=
  set_playback (nextStartTimeRef st) ∅ (started st)
    (stopped st ++ elements (audioSourcesRef st)) st.

(** [nextStartTimeRef.current = 0] *)
Definition reset_clock (st : State) : State :=
  set_playback 0%float (audioSourcesRef st) (started st) (stopped st) st.

Definition disconnect (st : State) : State :=
  let st := set_input false None false st in
  let st := stop_sources st in
  let st := set_outputContextRef false st in
  let st := setConnectionState DISCONNECTED st in
  let st := reset_clock st in
  set_transcriptions "" "" st.

(** [connect] up to [await getUserMedia]. The second component is
    the suspended rest of the call, if there is one. *)
Definition connect (st : State) : State * option ConnectEnv :=
  if nonempty (apiKey st) then
    let env := mkConnectEnv (isMicOn st) in
    let st := setConnectionState CONNECTING st in
    let st := set_input true (scriptProcessorRef st) (streamRef st) st in
    let st := set_outputContextRef true st in
    (st, Some env)
  else (st, None).

(** The rest of [connect], run when [getUserMedia] settles. *)
Definition connect_resume (env : ConnectEnv) (r : MicResult) (st : State) : State :=
  match r with
  | MicGranted =>
      let st := set_input (inputContextRef st) (scriptProcessorRef st) true st in
      set_sessionPromiseRef true st
  | MicDenied => setConnectionState ERROR st
  end.

Definition onopen (env : ConnectEnv) (st : State) : State :=
  let st := setConnectionState CONNECTED st in
  if negb (inputContextRef st) || negb (streamRef st) then st
  else
    let processor := mkProcessor (envMicOn env) in
    let st := set_input (inputContextRef st) (Some processor) (streamRef st) st in
    set_processorNode (Some processor) st.

(** [processor.onaudioprocess], lines 134-160. *)
Definition onaudioprocess (p : Processor) (inputData : list float)
    (st : State) : State :=
  if negb (handlerMicOn p) then st
  else
    let st := setVolume (rms inputData) st in
    if sessionPromiseRef st
    then set_sent (sent st ++ [float32ToPCM16 inputData]) st
    else st.

(** The audio thread hands a frame to the processor node, if [onopen]
    has made one; the handler stays on the node whatever becomes of
    [scriptProcessorRef]. The record keeps the node made last. *)
Definition audio_frame (inputData : list float) (st : State) : State :=
  match processorNode st with
  | Some p => onaudioprocess p inputData st
  | None => st
  end.

(** The audio part of [onmessage], lines 166-188. *)
Definition schedule (now : Seconds) (data : string) (st : State) : State :=
  let audioBuffer := pcmToAudioBuffer data in
  let start := Math_max (nextStartTimeRef st) (seconds now) in
  let source : SourceNode := length (started st) in
  set_playback (start + duration audioBuffer)%float
    ({[ source ]} ∪ audioSourcesRef st)
    (started st ++ [mkStarted source start audioBuffer])
    (stopped st) st.

(** [source.onended] *)
Definition onended (source : SourceNode) (st : State) : State :=
  set_playback (nextStartTimeRef st) (audioSourcesRef st ∖ {[ source ]})
    (started st) (stopped st) st.

Definition handle_audio (msg : LiveServerMessage) (clk : MessageClock)
    (st : State) : State :=
  match truthy (base64Audio msg) with
  | Some data => if outputContextRef st then schedule (currentTime clk) data st else st
  | None => st
  end.

Definition handle_output (msg : LiveServerMessage) (clk : MessageClock)
    (st : State) : State :=
  match truthy (outputText msg) with
  | Some t =>
      let out := currentOutputTranscription st +:+ t in
      let st := set_transcriptions (currentInputTranscription st) out st in
      setMessages (Transcript.updateStreamingMessage (atOutput clk) model out) st
  | None => st
  end.

Definition handle_input (msg : LiveServerMessage) (clk : MessageClock)
    (st : State) : State :=
  match truthy (inputText msg) with
  | Some t =>
      let inp := currentInputTranscription st +:+ t in
      let st := set_transcriptions inp (currentOutputTranscription st) st in
      setMessages (Transcript.updateStreamingMessage (atInput clk) user inp) st
  | None => st
  end.

(** [commitMessage(role, buffer)] and [buffer = ''] when the buffer
    of [role] is not empty. *)
Definition commit_buffer (now : Stamp) (r : Role) (st : State) : State :=
  let buf := match r with
             | user => currentInputTranscription st
             | model => currentOutputTranscription st
             end in
  if nonempty buf then
    let st := setMessages (Transcript.commitMessage now r buf) st in
    match r with
    | user => set_transcriptions "" (currentOutputTranscription st) st
    | model => set_transcriptions (currentInputTranscription st) "" st
    end
  else st.

Definition handle_turnComplete (msg : LiveServerMessage) (clk : MessageClock)
    (st : State) : State :=
  if turnComplete msg then
    let st := commit_buffer (atCommitInput clk) user st in
    commit_buffer (atCommitOutput clk) model st
  else st.

(** Lines 217-228. *)
Definition handle_interrupted (msg : LiveServerMessage) (clk : MessageClock)
    (st : State) : State :=
  if interrupted msg then
    let st := stop_sources st in
    let st := reset_clock st in
    commit_buffer (atInterrupt clk) model st
  else st.

Definition onmessage (msg : LiveServerMessage) (clk : MessageClock)
    (st : State) : State :=
  let st := handle_audio msg clk st in
  let st := handle_output msg clk st in
  let st := handle_input msg clk st in
  let st := handle_turnComplete msg clk st in
  handle_interrupted msg clk st.

Definition onclose (st : State) : State := setConnectionState DISCONNECTED st.

Definition onerror (st : State) : State := setConnectionState ERROR st.

Definition toggleMic (st : State) : State := setIsMicOn negb st.

(** Whatever can happen to the hook, one callback at a time. *)
Inductive Event : Set :=
  | Connect
  | MicSettled (env : ConnectEnv) (r : MicResult)
  | OnOpen (env : ConnectEnv)
  | AudioProcess (inputData : list float)
  | OnMessage (msg : LiveServerMessage) (clk : MessageClock)
  | OnEnded (source : SourceNode)
  | OnClose
  | OnError
  | ToggleMic
  | Disconnect.

Definition step (st : State) (e : Event) : State :=
  match e with
  | Connect => fst (connect st)
  | MicSettled env r => connect_resume env r st
  | OnOpen env => onopen env st
  | AudioProcess inputData => audio_frame inputData st
  | OnMessage msg clk => onmessage msg clk st
  | OnEnded source => onended source st
  | OnClose => onclose st
  | OnError => onerror st
  | ToggleMic => toggleMic st
  | Disconnect => disconnect st
  end.

Definition run (evs : list Event) (st : State) : State := foldl step st evs.

(** The events that reset the output clock: [disconnect], and a
    message with the interruption flag. *)
Definition resets_clock (e : Event) : bool :=
  match e with
  | Disconnect => true
  | OnMessage msg _ => interrupted msg
  | _ => false
  end.

(** Each source of [l] has ended when a later one starts; the end of
    a source is its start plus its duration, added in binary64 as the
    source adds them for the clock. *)
Definition back_to_back (l : list Started) : Prop :=
  forall i j a b, i < j -> l !! i = Some a -> l !! j = Some b ->
    (when a + duration (buffer a) <=? when b)%float = true.

(** Each source of [l] has ended at [clock]. *)
Definition ends_by (clock : float) (l : list Started) : Prop :=
  forall a, a ∈ l -> (when a + duration (buffer a) <=? clock)%float = true.

(** The sources started while [evs] ran from [st], in order. *)
Definition scheduled_during (evs : list Event) (st : State) : list Started :=
  drop (length (started st)) (started (run evs st)).

(** The bookkeeping of the playback side: the sources in the record
    are numbered in the order of their start, every active and every
    stopped source is one of them, and the clock is not negative. *)
Definition playback_ok (st : State) : Prop :=
  (forall i s, started st !! i = Some s -> node s = i) /\
  (forall n, n ∈ audioSourcesRef st -> n < length (started st)) /\
  (forall n, n ∈ stopped st -> n < length (started st)) /\
  (0 <=? nextStartTimeRef st)%float = true.

(** [st'] differs from [st] at most in the transcript and in the two
    transcription buffers. *)
Definition changes_only_transcript (st st' : State) : Prop :=
  exists msgs input output,
    st' = set_transcriptions input output (setMessages (fun _ => msgs) st).

(** The one event that makes the audio contexts. *)
Definition is_connect (e : Event) : bool :=
  match e with
  | Connect => true
  | _ => false
  end.

(** The commands that the page gives to the hook. *)
Definition user_command (e : Event) : bool :=
  match e with
  | Connect | ToggleMic | Disconnect => true
  | _ => false
  end.

(** A frame of the audio thread. *)
Definition is_frame (e : Event) : bool :=
  match e with
  | AudioProcess _ => true
  | _ => false
  end.




End Handlers.

End GeminiLive.

(** ** The fallback backend: [src/hooks/useGptTutor.ts] *)
Module GptTutor.

(** The state cells and refs of the hook, followed by the record of
    what the hook did to the platform: whether the recognition engine
    was last started or stopped, the texts given to [speakText], and
    whether [connect] has put a script processor into the audio graph.
    The hook never takes the handler off that node, so the node
    outlives the ref that [disconnect] clears. *)
Record State : Type := mkState {
  connectionState : ConnectionState;
  messages : list ChatMessage;
  volume : float;
  isMicOn : bool;
  apiKey : string;
  connectionStateRef : ConnectionState;
  micStateRef : bool;
  inputContextRef : bool;
  scriptProcessorRef : bool;
  streamRef : bool;
  recognitionRef : bool;
  listening : bool;
  spoken : list string;
  processorNode : bool
}.

Definition initial (key : string) : State :=
  {| connectionState := DISCONNECTED; messages := []; volume := 0%float;
     isMicOn := true; apiKey := key;
     connectionStateRef := DISCONNECTED; micStateRef := true;
     inputContextRef := false; scriptProcessorRef := false;
     streamRef := false; recognitionRef := false;
     listening := false; spoken := []; processorNode := false |}.

(** [setConnectionState] writes the cell. [connectionStateRef] follows
    only when the effect of lines 37-39 runs, after the render that the
    call brings about. *)
Definition setConnectionState (c : ConnectionState) (st : State) : State :=
  mkState c (messages st) (volume st) (isMicOn st) (apiKey st)
    (connectionStateRef st) (micStateRef st) (inputContextRef st)
    (scriptProcessorRef st) (streamRef st) (recognitionRef st)
    (listening st) (spoken st) (processorNode st).

(** [connectionStateRef.current = c] *)
Definition set_connectionStateRef (c : ConnectionState) (st : State) : State :=
  mkState (connectionState st) (messages st) (volume st) (isMicOn st) (apiKey st)
    c (micStateRef st) (inputContextRef st) (scriptProcessorRef st)
    (streamRef st) (recognitionRef st) (listening st) (spoken st)
    (processorNode st).

Definition setMessages (f : list ChatMessage -> list ChatMessage) (st : State) : State :=
  mkState (connectionState st) (f (messages st)) (volume st) (isMicOn st) (apiKey st)
    (connectionStateRef st) (micStateRef st) (inputContextRef st)
    (scriptProcessorRef st) (streamRef st) (recognitionRef st)
    (listening st) (spoken st) (processorNode st).

Definition setVolume (v : float) (st : State) : State :=
  mkState (connectionState st) (messages st) v (isMicOn st) (apiKey st)
    (connectionStateRef st) (micStateRef st) (inputContextRef st)
    (scriptProcessorRef st) (streamRef st) (recognitionRef st)
    (listening st) (spoken st) (processorNode st).

(** [setIsMicOn], together with the effect of lines 42-44 that copies
    the cell into [micStateRef]. The only caller is [toggleMic], the
    handler of a click; React renders and runs the effects of a click
    before it hands the next event to the page, so no callback of the
    hook sees the cell and the ref apart. *)
Definition setIsMicOn (b : bool) (st : State) : State :=
  mkState (connectionState st) (messages st) (volume st) b (apiKey st)
    (connectionStateRef st) b (inputContextRef st)
    (scriptProcessorRef st) (streamRef st) (recognitionRef st)
    (listening st) (spoken st) (processorNode st).

(** Assignment to the refs of the audio input side. *)
Definition set_input (ctx proc stream : bool) (st : State) : State :=
  mkState (connectionState st) (messages st) (volume st) (isMicOn st) (apiKey st)
    (connectionStateRef st) (micStateRef st) ctx proc stream
    (recognitionRef st) (listening st) (spoken st) (processorNode st).

(** Assignment to [recognitionRef] and the state of the engine. *)
Definition set_recognition (ref engine : bool) (st : State) : State :=
  mkState (connectionState st) (messages st) (volume st) (isMicOn st) (apiKey st)
    (connectionStateRef st) (micStateRef st) (inputContextRef st)
    (scriptProcessorRef st) (streamRef st) ref engine (spoken st)
    (processorNode st).

(** The node that [createScriptProcessor] made and that [connect] put
    into the audio graph. *)
Definition set_processorNode (node : bool) (st : State) : State :=
  mkState (connectionState st) (messages st) (volume st) (isMicOn st) (apiKey st)
    (connectionStateRef st) (micStateRef st) (inputContextRef st)
    (scriptProcessorRef st) (streamRef st) (recognitionRef st)
    (listening st) (spoken st) node.

Definition set_spoken (s : list string) (st : State) : State :=
  mkState (connectionState st) (messages st) (volume st) (isMicOn st) (apiKey st)
    (connectionStateRef st) (micStateRef st) (inputContextRef st)
    (scriptProcessorRef st) (streamRef st) (recognitionRef st)
    (listening st) s (processorNode st).

(** The last entry of [event.results]: the transcript of its first
    alternative and its [isFinal] flag. *)
Record RecognitionResult : Set := mkRecognitionResult {
  transcript : string;
  isFinal : bool
}.

(** The readings of [Date.now()] while one result is handled: by the
    two reducers, and for [pendingId] and the placeholder's
    [timestamp]. *)
Record ResultClock : Set := mkResultClock {
  atUpdate : Stamp;
  atCommit : Stamp;
  atPending : Stamp
}.

(** How [await fetchCompletion(transcript)] settles: with the reply
    text, or by throwing. *)
Inductive Completion : Set :=
  | Replied (completion : string)
  | Failed.

(** [String.prototype.trim] removes the code points of WhiteSpace and
    LineTerminator from both ends. A string is the sequence of the
    bytes of its UTF-8 encoding here, so these are, with one byte: TAB,
    LF, VT, FF, CR and SPACE; *)
Definition is_space1 (c : Ascii.ascii) : bool :=
  match Ascii.N_of_ascii c with
  | 9 | 10 | 11 | 12 | 13 | 32 => true
  | _ => false
  end%N.

(** with two bytes: U+00A0, the no-break space; *)
Definition is_space2 (c1 c2 : Ascii.ascii) : bool :=
  match Ascii.N_of_ascii c1, Ascii.N_of_ascii c2 with
  | 194, 160 => true
  | _, _ => false
  end%N.

(** with three bytes: U+1680, U+2000 to U+200A, the line and paragraph
    separators U+2028 and U+2029, U+202F, U+205F, U+3000, and the byte
    order mark U+FEFF. *)
Definition is_space3 (c1 c2 c3 : Ascii.ascii) : bool :=
  match Ascii.N_of_ascii c1, Ascii.N_of_ascii c2, Ascii.N_of_ascii c3 with
  | 225, 154, 128 => true
  | 226, 128, b =>
      ((128 <=? b) && (b <=? 138)) || (b =? 168) || (b =? 169) || (b =? 175)
  | 226, 129, 159 => true
  | 227, 128, 128 => true
  | 239, 187, 191 => true
  | _, _, _ => false
  end%N.

Fixpoint trim_start (s : string) : string :=
  match s with
  | EmptyString => EmptyString
  | String c1 s1 =>
      if is_space1 c1 then trim_start s1
      else match s1 with
           | EmptyString => s
           | String c2 s2 =>
               if is_space2 c1 c2 then trim_start s2
               else match s2 with
                    | EmptyString => s
                    | String c3 s3 =>
                        if is_space3 c1 c2 c3 then trim_start s3 else s
                    end
           end
  end.

(** Nothing but white space. *)
Definition all_space (s : string) : bool :=
  match trim_start s with
  | EmptyString => true
  | String _ _ => false
  end.

(** The longest suffix of white space is dropped. No encoding of a
    white-space code point begins with a continuation byte, so in a
    well-formed string such a suffix begins at a code point. *)
Fixpoint trim_end (s : string) : string :=
  match s with
  | EmptyString => EmptyString
  | String c s' => if all_space s then EmptyString else String c (trim_end s')
  end.

Definition trim (s : string) : string := trim_end (trim_start s).

Definition thinking : string := "Thinking...".

Definition error_text : string := "There was an error contacting OpenAI.".

(** The placeholder turn of lines 205-215. *)
Definition pending_turn (now : Stamp) : ChatMessage :=
  {| id := toString (idNow now); role := model; text := thinking;
     isComplete := false; timestamp := tsNow now |}.

(** The updater of lines 219-223 and 227-231:
    [prev.map(msg => msg.id === pendingId ? {...msg, text, isComplete: true} : msg)]. *)
Definition replace_pending (pendingId : string) (t : string)
    (prev : list ChatMessage) : list ChatMessage :=
  map (fun msg => if bool_decide (id msg = pendingId)
                  then with_text_complete msg t else msg) prev.

(** The text that the settled request leaves in the placeholder. *)
Definition settled_text (c : Completion) : string :=
  match c with
  | Replied completion => completion
  | Failed => error_text
  end.

(** [recognitionRef.current?.stop()] and [?.start()] *)
Definition recognition_stop (st : State) : State :=
  if recognitionRef st then set_recognition true false st else st.

Definition recognition_start (st : State) : State :=
  if recognitionRef st then set_recognition true true st else st.

(** [speakText]; the text is recorded when it is handed to speech
    synthesis. *)
Definition speakText (t : string) (st : State) : State :=
  set_spoken (spoken st ++ [t]) st.

Definition disconnect (st : State) : State :=
  let st := set_connectionStateRef DISCONNECTED st in
  let st := if recognitionRef st then set_recognition false false st else st in
  let st := set_input false false false st in
  let st := setConnectionState DISCONNECTED st in
  setVolume 0%float st.

(** [connect] up to [await getUserMedia]; [supported] tells whether
    the browser has a speech recognition class. The second component
    tells whether the call is suspended at the [await]. *)
Definition connect (supported : bool) (st : State) : State * bool :=
  if nonempty (apiKey st) then
    let st := setConnectionState CONNECTING st in
    if supported then
      (set_input true (scriptProcessorRef st) (streamRef st) st, true)
    else (setConnectionState ERROR st, false)
  else (st, false).

(** The rest of [connect], run when [getUserMedia] settles. With
    [inputContextRef.current] null the call of
    [createMediaStreamSource] throws, and the [catch] of [connect]
    takes over. *)
Definition connect_resume (r : MicResult) (st : State) : State :=
  match r with
  | MicGranted =>
      let st := set_input (inputContextRef st) (scriptProcessorRef st) true st in
      if inputContextRef st then
        let st := set_input (inputContextRef st) true (streamRef st) st in
        let st := set_processorNode true st in
        set_recognition true true st
      else setConnectionState ERROR st
  | MicDenied => setConnectionState ERROR st
  end.

(** [processor.onaudioprocess], lines 168-181. *)
Definition onaudioprocess (inputData : list float) (st : State) : State :=
  if negb (micStateRef st) then setVolume 0%float st
  else setVolume (rms inputData) st.

(** The audio thread hands a frame to the processor node, if
    [connect] has made one; the handler stays on the node whatever
    becomes of [scriptProcessorRef]. The record keeps the node made
    last. *)
Definition audio_frame (inputData : list float) (st : State) : State :=
  if processorNode st then onaudioprocess inputData st else st.

(** React renders the component with what the cell holds and runs the
    effect of lines 37-39 of that render:
    [connectionStateRef.current = connectionState]. *)
Definition rendered (st : State) : State :=
  set_connectionStateRef (connectionState st) st.

Definition onstart (st : State) : State := setConnectionState CONNECTED st.

(** [recognition.onresult] up to [await fetchCompletion]. The second
    component is the [pendingId] of the suspended rest of the
    handler, if the result was final. *)
Definition onresult (ev : RecognitionResult) (clk : ResultClock)
    (st : State) : State * option string :=
  let t := trim (transcript ev) in
  let st := setMessages (Transcript.updateStreamingMessage (atUpdate clk) user t) st in
  if isFinal ev then
    let st := setMessages (Transcript.commitMessage (atCommit clk) user t) st in
    let pendingId := toString (idNow (atPending clk)) in
    let st := setMessages (fun prev => prev ++ [pending_turn (atPending clk)]) st in
    (st, Some pendingId)
  else (st, None).

(** The rest of [recognition.onresult], run when the completion
    request settles: lines 217-233. *)
Definition onresult_resume (pendingId : string) (c : Completion)
    (st : State) : State :=
  match c with
  | Replied completion =>
      let st := setMessages (replace_pending pendingId completion) st in
      speakText completion st
  | Failed =>
      let st := setMessages (replace_pending pendingId error_text) st in
      setConnectionState ERROR st
  end.

Definition onend (st : State) : State :=
  if bool_decide (connectionStateRef st = CONNECTED) && micStateRef st
  then set_recognition (recognitionRef st) true st
  else st.

Definition onerror (st : State) : State := setConnectionState ERROR st.

Definition toggleMic (st : State) : State :=
  let next := negb (isMicOn st) in
  let st :=
    if negb next then setVolume 0%float (recognition_stop st)
    else if bool_decide (connectionState st = CONNECTED)
         then recognition_start st
         else st in
  setIsMicOn next st.

(** Whatever can happen to the hook, one callback at a time. *)
Inductive Event : Set :=
  | Connect (supported : bool)
  | MicSettled (r : MicResult)
  | OnStart
  | OnResult (ev : RecognitionResult) (clk : ResultClock)
  | CompletionSettled (pendingId : string) (c : Completion)
  | OnEnd
  | OnError
  | AudioProcess (inputData : list float)
  | ToggleMic
  | Disconnect
  | Rendered.

Definition step (st : State) (e : Event) : State :=
  match e with
  | Connect supported => fst (connect supported st)
  | MicSettled r => connect_resume r st
  | OnStart => onstart st
  | OnResult ev clk => fst (onresult ev clk st)
  | CompletionSettled pendingId c => onresult_resume pendingId c st
  | OnEnd => onend st
  | OnError => onerror st
  | AudioProcess inputData => audio_frame inputData st
  | ToggleMic => toggleMic st
  | Disconnect => disconnect st
  | Rendered => rendered st
  end.

Definition run (evs : list Event) (st : State) : State := foldl step st evs.

(** The replies that a list of events brings, in order. *)
Definition replies (evs : list Event) : list string :=
  omap (fun e => match e with
                 | CompletionSettled _ (Replied completion) => Some completion
                 | _ => None
                 end) evs.

(** The commands that a page gives to the hook. *)
Definition user_command (e : Event) : bool :=
  match e with
  | Connect _ | ToggleMic | Disconnect => true
  | _ => false
  end.

(** [buildHistory], lines 101-112. *)
Module History.

(** ['system' | 'user' | 'assistant'] *)
Inductive HistoryRole : Set :=
  | system
  | user_role
  | assistant.

(** [msg.role === 'user' ? 'user' : 'assistant'] *)
Definition entry_role (msg : ChatMessage) : HistoryRole :=
  match role msg with
  | user => user_role
  | model => assistant
  end.

Record HistoryMessage : Set := mkHistoryMessage {
  role : HistoryRole;
  content : string
}.

Definition dquote : string := String (Ascii.ascii_of_nat 34) EmptyString.

Definition SYSTEM_INSTRUCTION : string :=
  "You are a friendly, patient, and encouraging English language tutor.
Your goal is to have a casual conversation with the user to help them practice their spoken English.
If the user makes a significant grammatical error, gently correct them in a natural way (e.g., "
  +:+ dquote +:+ "Oh, did you mean...?" +:+ dquote +:+
  ") and then continue the conversation.
Do not be overly pedantic. Keep the tone light and fun.
Speak clearly and at a moderate pace.".

(** [messages] is the value of the cell in the render that built the
    function; [history.push] appends. *)
Definition buildHistory (messages : list ChatMessage) (newUserText : string)
    : list HistoryMessage :=
  let history := [mkHistoryMessage system SYSTEM_INSTRUCTION] in
  let history :=
    foldl (fun h msg => h ++ [mkHistoryMessage (entry_role msg) (text msg)])
      history messages in
  history ++ [mkHistoryMessage user_role newUserText].

End History.

End GptTutor.

(** ** Concrete runs

    Inputs on which the properties below are exercised. *)
Module Scenarios.

Definition at_ms (t : N) : Stamp := mkStamp t t.

(** Stand-ins for the two functions of [utils/audioUtils.ts]: a
    payload that names the length of the frame, and a buffer of half
    a second whatever the payload. *)
Definition pcm16 (inputData : list float) : string :=
  "pcm16:" +:+ pretty (length inputData).

Definition decode (data : string) : GeminiLive.AudioBuffer :=
  GeminiLive.mkAudioBuffer (mkSeconds 0.5 eq_refl).

(** Readings of [ctx.currentTime]. *)
Definition at_0 : Seconds := mkSeconds 0 eq_refl.
Definition at_125ms : Seconds := mkSeconds 0.125 eq_refl.
Definition at_250ms : Seconds := mkSeconds 0.25 eq_refl.
Definition at_375ms : Seconds := mkSeconds 0.375 eq_refl.
Definition at_500ms : Seconds := mkSeconds 0.5 eq_refl.

(** A script-processor frame of 4096 samples of amplitude 0.5. *)
Definition loud_frame : list float := replicate 4096 0.5%float.

Module Gemini.
Import GeminiLive.

Definition env : ConnectEnv := mkConnectEnv true.

Definition clock (audio : Seconds) (t : N) : MessageClock :=
  mkMessageClock audio (at_ms t) (at_ms t) (at_ms t) (at_ms t) (at_ms t).

(** A session opened with the microphone on. *)
Definition opened : State :=
  run pcm16 decode [Connect; MicSettled env MicGranted; OnOpen env]
    (initial "key").

(** The user mutes, and the audio thread delivers a frame. *)
Definition muted_frame : State :=
  run pcm16 decode [ToggleMic; AudioProcess loud_frame] opened.

(** The tutor says "Today we will practice" in two messages, each
    with an audio payload. *)
Definition tutor_speaks : list Event :=
  [OnMessage (mkLiveServerMessage (Some "AAAAAAAA") (Some "Today we ") None false false)
     (clock at_0 2000);
   OnMessage (mkLiveServerMessage (Some "BBBBBBBB") (Some "will practice") None false false)
     (clock at_125ms 2040)].

Definition speaking : State := run pcm16 decode tutor_speaks opened.


Definition interruption : LiveServerMessage :=
  mkLiveServerMessage None None None false true.

(** The user talks over the tutor: a payload of half a second at time
    0, the interruption at 0.125 s, the next payload at 0.25 s. *)
Definition barge_in : list Event :=
  [OnMessage (mkLiveServerMessage (Some "AAAAAAAA") None None false false)
     (clock at_0 2000);
   OnMessage interruption (clock at_125ms 2100);
   OnMessage (mkLiveServerMessage (Some "BBBBBBBB") None None false false)
     (clock at_250ms 2200)].

(** Callbacks of the old session that still arrive after
    [disconnect]. *)
Definition late_events : list Event :=
  [OnMessage (mkLiveServerMessage (Some "CCCCCCCC") (Some " grammar") None false false)
     (clock at_375ms 2200);
   AudioProcess loud_frame;
   MicSettled env MicGranted;
   OnOpen env;
   OnEnded 0%nat;
   OnMessage interruption (clock at_500ms 2300)].

(** The end of the tutor's turn, flagged as interrupted as well. *)
Definition turn_end : LiveServerMessage :=
  mkLiveServerMessage None None None true true.

(** The user's "Hello" and the end of the turn in one message. *)
Definition hello_turn : LiveServerMessage :=
  mkLiveServerMessage None None (Some "Hello") true false.

End Gemini.

Module Tutor.
Import GptTutor.

(** A session in which recognition has started. *)
Definition listening_session : State :=
  run [Connect true; MicSettled MicGranted; OnStart] (initial "key").

(** The same session after the render that [onstart] brought about. *)
Definition settled_session : State := run [Rendered] listening_session.

(** A recognition run of that session has ended: the engine has
    stopped by itself. *)
Definition run_ended : State := set_recognition true false settled_session.

(** The final result "I goes to school", handled within one
    millisecond. *)
Definition final_result : RecognitionResult :=
  mkRecognitionResult " I goes to school " true.

Definition one_ms : ResultClock :=
  mkResultClock (at_ms 5000) (at_ms 5000) (at_ms 5000).

(** The state in which the completion request is in flight. *)
Definition awaiting : State := fst (onresult final_result one_ms listening_session).

Definition reply : string := "Oh, did you mean I go to school?".

(** The interim result "I goes" between a no-break space and a space,
    and an ideographic space and a line feed: U+00A0 and U+3000 in
    UTF-8. *)
Definition nbsp : string :=
  String (Ascii.ascii_of_nat 194) (String (Ascii.ascii_of_nat 160) EmptyString).

Definition ideographic_space : string :=
  String (Ascii.ascii_of_nat 227)
    (String (Ascii.ascii_of_nat 128) (String (Ascii.ascii_of_nat 128) EmptyString)).

Definition line_feed : string := String (Ascii.ascii_of_nat 10) EmptyString.

Definition padded_result : RecognitionResult :=
  mkRecognitionResult
    (nbsp +:+ " I goes" +:+ ideographic_space +:+ line_feed) false.

(** Three frames of the audio thread. *)
Definition frames : list (list float) := [loud_frame; loud_frame; loud_frame].

End Tutor.

End Scenarios.

(** * Properties *)

(** ** Binary64 arithmetic

    Facts about the order of floats, [Math.max] and sums of numbers
    that are not negative (such a sum is not negative and not below
    its first term), from the specification of the format in the
    Standard Library. *)
Module FloatFacts.

Lemma zero_spec : Prim2SF 0%float = S754_zero false.
Proof. reflexivity. Qed.

Lemma nonneg_spec x : (0 <=? x)%float = sf_nonneg (Prim2SF x).
Proof.
  rewrite leb_spec, zero_spec. unfold SFleb, SFcompare.
  destruct (Prim2SF x) as [s|s| |s m e]; try destruct s; reflexivity.
Qed.

(** Digits, shifts and powers of two. *)
Lemma digits2_size p : digits2_pos p = Pos.size p.
Proof. induction p as [p IH|p IH|]; simpl; by rewrite ?IH. Qed.

Lemma digits2_log2 p : Z.pos (digits2_pos p) = Z.succ (Z.log2 (Z.pos p)).
Proof.
  rewrite digits2_size. destruct p as [p|p|]; simpl; try done; lia.
Qed.

Lemma digits2_bounds p :
  (2 ^ (Z.pos (digits2_pos p) - 1) <= Z.pos p < 2 ^ Z.pos (digits2_pos p))%Z.
Proof.
  rewrite digits2_log2.
  replace (Z.succ (Z.log2 (Z.pos p)) - 1)%Z with (Z.log2 (Z.pos p)) by lia.
  apply Z.log2_spec. lia.
Qed.

Lemma digits2_mono p q :
  (p <= q)%positive -> (Z.pos (digits2_pos p) <= Z.pos (digits2_pos q))%Z.
Proof.
  intros Hpq. rewrite !digits2_log2.
  pose proof (Z.log2_le_mono (Z.pos p) (Z.pos q)). lia.
Qed.

Lemma iter_xO_value m d : Z.pos (Pos.iter xO m d) = (Z.pos m * 2 ^ Z.pos d)%Z.
Proof.
  induction d as [|d IH] using Pos.peano_ind.
  - simpl. lia.
  - rewrite Pos.iter_succ, Pos2Z.inj_succ, Z.pow_succ_r by lia.
    rewrite Pos2Z.inj_xO, IH. lia.
Qed.

Lemma iter_xO_digits m d :
  Z.pos (digits2_pos (Pos.iter xO m d)) = (Z.pos (digits2_pos m) + Z.pos d)%Z.
Proof.
  induction d as [|d IH] using Pos.peano_ind.
  - simpl. lia.
  - rewrite Pos.iter_succ. simpl digits2_pos. lia.
Qed.

Lemma shr_1_div2 mrs :
  (0 <= shr_m mrs)%Z -> shr_m (shr_1 mrs) = (shr_m mrs / 2)%Z.
Proof.
  destruct mrs as [m r s]. simpl. intros Hm.
  rewrite <- Z.div2_div.
  destruct m as [|p|p]; [done| |lia]. by destruct p.
Qed.

Lemma pow2_xO p : (2 ^ Z.pos p~0 = 2 ^ Z.pos p * 2 ^ Z.pos p)%Z.
Proof.
  replace (Z.pos p~0) with (Z.pos p + Z.pos p)%Z by lia.
  by rewrite Z.pow_add_r by lia.
Qed.

Lemma pow2_xI p : (2 ^ Z.pos p~1 = 2 * (2 ^ Z.pos p * 2 ^ Z.pos p))%Z.
Proof.
  replace (Z.pos p~1) with (1 + (Z.pos p + Z.pos p))%Z by lia.
  by rewrite !Z.pow_add_r by lia.
Qed.

Lemma iter_pos_div p mrs :
  (0 <= shr_m mrs)%Z ->
  shr_m (SpecFloat.iter_pos shr_1 p mrs) = (shr_m mrs / 2 ^ Z.pos p)%Z.
Proof.
  revert mrs. induction p as [p IH|p IH|]; intros mrs Hm; simpl SpecFloat.iter_pos.
  - assert (0 <= shr_m (shr_1 mrs))%Z as H1.
    { rewrite shr_1_div2 by done. by apply Z.div_pos. }
    assert (0 <= shr_m (SpecFloat.iter_pos shr_1 p (shr_1 mrs)))%Z as H2.
    { rewrite IH by done. apply Z.div_pos; lia. }
    rewrite IH, IH, shr_1_div2 by done.
    rewrite !Z.div_div by lia. by rewrite pow2_xI.
  - assert (0 <= shr_m (SpecFloat.iter_pos shr_1 p mrs))%Z as H2.
    { rewrite IH by done. apply Z.div_pos; lia. }
    rewrite IH, IH by done.
    rewrite !Z.div_div by lia. by rewrite pow2_xO.
  - rewrite shr_1_div2 by done. done.
Qed.

Section Rounding.
Variables prec emax : Z.
Hypothesis prec_pos : (0 < prec)%Z.

Local Abbreviation emin := (SpecFloat.emin prec emax).
Local Abbreviation fexp := (SpecFloat.fexp prec emax).

Lemma shr_1_nonneg mrs : (0 <= shr_m mrs)%Z -> (0 <= shr_m (shr_1 mrs))%Z.
Proof.
  destruct mrs as [m r s]. simpl. intros Hm.
  destruct m as [|p|p]; [simpl; lia| |lia].
  destruct p; simpl; lia.
Qed.

Lemma iter_pos_nonneg p mrs :
  (0 <= shr_m mrs)%Z -> (0 <= shr_m (SpecFloat.iter_pos shr_1 p mrs))%Z.
Proof.
  revert mrs. induction p as [p IH|p IH|]; intros mrs Hm; simpl.
  - apply IH, IH. by apply shr_1_nonneg.
  - apply IH, IH. done.
  - by apply shr_1_nonneg.
Qed.

Lemma shr_fexp_nonneg m e l :
  (0 <= m)%Z -> (0 <= shr_m (fst (shr_fexp prec emax m e l)))%Z.
Proof.
  intros Hm. unfold shr_fexp, shr.
  assert (0 <= shr_m (shr_record_of_loc m l))%Z as H0.
  { destruct l as [|[]]; simpl; lia. }
  destruct (_ - e)%Z; simpl; try done. by apply iter_pos_nonneg.
Qed.

Lemma round_nearest_even_nonneg m l :
  (0 <= m)%Z -> (0 <= round_nearest_even m l)%Z.
Proof.
  intros Hm. unfold round_nearest_even.
  destruct l as [|[]]; try lia. destruct (Z.even m); lia.
Qed.

Lemma binary_round_aux_nonneg m e l :
  (0 <= m)%Z -> sf_nonneg (binary_round_aux prec emax false m e l) = true.
Proof.
  intros Hm. unfold binary_round_aux.
  pose proof (shr_fexp_nonneg m e l Hm) as H1.
  destruct (shr_fexp prec emax m e l) as [mrs' e'] eqn:E1. simpl in H1.
  pose proof (shr_fexp_nonneg _ e' loc_Exact
                (round_nearest_even_nonneg _ (loc_of_shr_record mrs') H1)) as H2.
  destruct (shr_fexp prec emax _ e' loc_Exact) as [mrs'' e''] eqn:E2. simpl in H2.
  destruct (shr_m mrs'') as [|p|p]; [done| |lia].
  by destruct (Z.leb _ _).
Qed.

Lemma binary_round_nonneg m e :
  sf_nonneg (binary_round prec emax false m e) = true.
Proof.
  unfold binary_round. destruct (shl_align _ _ _) as [mz ez].
  apply binary_round_aux_nonneg. lia.
Qed.

Lemma SFadd_nonneg x y :
  sf_nonneg x = true -> sf_nonneg y = true ->
  sf_nonneg (SFadd prec emax x y) = true.
Proof.
  destruct x as [sx|sx| |sx mx ex], y as [sy|sy| |sy my ey]; simpl; try done;
    try (destruct sx, sy; done).
  destruct sx, sy; try done. intros _ _. simpl.
  unfold binary_normalize.
  set (m1 := (shl_align mx ex (Z.min ex ey)).1).
  set (m2 := (shl_align my ey (Z.min ex ey)).1).
  destruct (Z.pos m1 + Z.pos m2)%Z eqn:E; [done| |lia].
  apply binary_round_nonneg.
Qed.

Lemma shr_record_m m l : shr_m (shr_record_of_loc m l) = m.
Proof. by destruct l as [|[]]. Qed.

(** What [shr_fexp] does to a positive mantissa at an exponent that is
    not below [emin]: the exponent does not go down, the mantissa stays
    positive, and it is the quotient by the power of two of the
    shift. *)
Lemma shr_fexp_shape m e l :
  (emin <= e)%Z ->
  let r := shr_fexp prec emax (Z.pos m) e l in
  (e <= snd r)%Z /\ (1 <= shr_m (fst r))%Z /\
  (snd r = e -> shr_m (fst r) = Z.pos m) /\
  (fexp (Z.pos (digits2_pos m) + e) <= snd r)%Z /\
  shr_m (fst r) = (Z.pos m / 2 ^ (snd r - e))%Z.
Proof.
  intros He. unfold shr_fexp, shr. simpl Zdigits2.
  pose proof (digits2_bounds m) as [Hlo Hhi].
  set (D := Z.pos (digits2_pos m)) in *.
  destruct (fexp (D + e) - e)%Z as [|k|k] eqn:Hk; simpl.
  - rewrite shr_record_m, Z.sub_diag, Z.div_1_r. lia.
  - rewrite iter_pos_div by (rewrite shr_record_m; lia).
    rewrite shr_record_m.
    replace (e + Z.pos k - e)%Z with (Z.pos k) by lia.
    assert (Z.pos k <= D - 1)%Z as Hkd.
    { unfold SpecFloat.fexp in Hk. lia. }
    assert (2 ^ Z.pos k <= Z.pos m)%Z as Hpow.
    { etrans; [|exact Hlo]. apply Z.pow_le_mono_r; lia. }
    split; [lia|]. split.
    + apply Z.div_le_lower_bound; lia.
    + split; [lia|]. split; [lia|done].
  - rewrite shr_record_m, Z.sub_diag, Z.div_1_r. lia.
Qed.

Lemma bounded_canonical m e :
  bounded prec emax m e = true ->
  fexp (Z.pos (digits2_pos m) + e) = e /\ (emin <= e)%Z.
Proof.
  unfold bounded, canonical_mantissa. intros H.
  apply andb_prop in H as [H _]. apply Z.eqb_eq in H.
  split; [done|]. unfold SpecFloat.fexp in H. lia.
Qed.

Lemma shl_align_le mx ex ez :
  (ez <= ex)%Z ->
  Z.pos (fst (shl_align mx ex ez)) = (Z.pos mx * 2 ^ (ex - ez))%Z /\
  Z.pos (digits2_pos (fst (shl_align mx ex ez)))
  = (Z.pos (digits2_pos mx) + (ex - ez))%Z.
Proof.
  intros Hle. unfold shl_align.
  destruct (ez - ex)%Z as [|d|d] eqn:Hd; simpl.
  - replace (ex - ez)%Z with 0%Z by lia. simpl. lia.
  - lia.
  - rewrite iter_xO_value, iter_xO_digits.
    by replace (ex - ez)%Z with (Z.pos d) by lia.
Qed.

Lemma binary_round_aligned m e :
  (e <= fexp (Z.pos (digits2_pos m) + e))%Z ->
  binary_round prec emax false m e
  = binary_round_aux prec emax false (Z.pos m) e loc_Exact.
Proof.
  intros Hle. unfold binary_round, shl_align.
  destruct (fexp (Z.pos (digits2_pos m) + e) - e)%Z eqn:Hd; try done. lia.
Qed.

Lemma round_nearest_even_ge m l : (m <= round_nearest_even m l)%Z.
Proof.
  unfold round_nearest_even. destruct l as [|[]]; try lia.
  destruct (Z.even m); lia.
Qed.

(** The sum of two positive numbers of the format is not below the
    first. *)
Lemma SFadd_finite_ge mx ex my ey :
  bounded prec emax mx ex = true -> bounded prec emax my ey = true ->
  SFleb (S754_finite false mx ex)
    (SFadd prec emax (S754_finite false mx ex) (S754_finite false my ey)) = true.
Proof.
  intros Hx Hy.
  destruct (bounded_canonical _ _ Hx) as [Hcx Hex].
  destruct (bounded_canonical _ _ Hy) as [Hcy Hey].
  unfold SFadd, cond_Zopp.
  set (ez := Z.min ex ey).
  destruct (shl_align_le mx ex ez) as [Hvx Hdx]; [lia|].
  destruct (shl_align_le my ey ez) as [Hvy Hdy]; [lia|].
  set (m1 := (shl_align mx ex ez).1) in *.
  set (m2 := (shl_align my ey ez).1) in *.
  change (Z.pos m1 + Z.pos m2)%Z with (Z.pos (m1 + m2)).
  unfold binary_normalize.
  pose proof (digits2_mono m1 (m1 + m2)) as Hmono.
  assert (ex <= fexp (Z.pos (digits2_pos (m1 + m2)) + ez))%Z as Hfexp.
  { rewrite <- Hcx at 1. unfold SpecFloat.fexp. lia. }
  rewrite binary_round_aligned by lia.
  unfold binary_round_aux.
  pose proof (shr_fexp_shape (m1 + m2) ez loc_Exact) as Hs1.
  destruct (shr_fexp prec emax (Z.pos (m1 + m2)) ez loc_Exact) as [mrs1 e1].
  destruct Hs1 as (He1 & Hm1 & Hsame1 & HE1 & Hdiv1); [lia|]. simpl in *.
  pose proof (round_nearest_even_ge (shr_m mrs1) (loc_of_shr_record mrs1)) as Hr.
  destruct (round_nearest_even (shr_m mrs1) (loc_of_shr_record mrs1))
    as [|q|q]; [lia| |lia].
  pose proof (shr_fexp_shape q e1 loc_Exact) as Hs2.
  destruct (shr_fexp prec emax (Z.pos q) e1 loc_Exact) as [mrs2 e2].
  destruct Hs2 as (He2 & Hm2 & Hsame2 & _ & _); [lia|]. simpl in *.
  destruct (shr_m mrs2) as [|m3|m3] eqn:Hm3; [lia| |lia].
  destruct (e2 <=? emax - prec)%Z; [|done].
  unfold SFleb, SFcompare.
  destruct (Z.compare_spec ex e2) as [Heq|Hlt|Hgt]; [|done|lia].
  change (PosDef.Pos.compare_cont Eq mx m3) with (mx ?= m3)%positive.
  assert (Z.pos mx <= Z.pos m3)%Z as Hle.
  { rewrite Hsame2 by lia. etrans; [|exact Hr].
    rewrite Hdiv1. replace (e1 - ez)%Z with (ex - ez)%Z by lia.
    apply Z.div_le_lower_bound; [apply Z.pow_pos_nonneg; lia|].
    rewrite Pos2Z.inj_add, Hvx. lia. }
  destruct (Pos.compare_spec mx m3); [done|done|lia].
Qed.

Lemma SFcompare_refl_finite s m e :
  SFcompare (S754_finite s m e) (S754_finite s m e) = Some Eq.
Proof.
  simpl. rewrite Z.compare_refl.
  change (PosDef.Pos.compare_cont Eq m m) with (m ?= m)%positive.
  rewrite Pos.compare_refl. by destruct s.
Qed.

Lemma SFadd_ge x y :
  SpecFloat.valid_binary prec emax x = true ->
  SpecFloat.valid_binary prec emax y = true ->
  sf_nonneg x = true -> sf_nonneg y = true ->
  SFleb x (SFadd prec emax x y) = true.
Proof.
  destruct x as [sx|sx| |sx mx ex], y as [sy|sy| |sy my ey];
    intros Hvx Hvy Hx Hy; try done; simpl in Hx, Hy;
    try (destruct sx; [done|]); try (destruct sy; [done|]);
    try reflexivity.
  - by destruct sx, sy.
  - unfold SFadd, SFleb. by rewrite SFcompare_refl_finite.
  - by apply SFadd_finite_ge.
Qed.

(** The order of the format is transitive. *)
Lemma SFleb_trans x y z :
  SFleb x y = true -> SFleb y z = true -> SFleb x z = true.
Proof.
  unfold SFleb.
  destruct x as [sx|sx| |sx mx ex], y as [sy|sy| |sy my ey],
    z as [sz|sz| |sz mz ez]; simpl; try done;
    try (by destruct sx); try (by destruct sy); try (by destruct sz);
    try (by destruct sx, sy); try (by destruct sy, sz); try (by destruct sx, sz);
    try (by destruct sx, sy, sz).
  change (PosDef.Pos.compare_cont Eq mx my) with (mx ?= my)%positive.
  change (PosDef.Pos.compare_cont Eq my mz) with (my ?= mz)%positive.
  change (PosDef.Pos.compare_cont Eq mx mz) with (mx ?= mz)%positive.
  destruct sx, sy, sz; try done;
    destruct (Z.compare_spec ex ey), (Z.compare_spec ey ez),
      (Z.compare_spec ex ez); try done; try lia;
    destruct (Pos.compare_spec mx my), (Pos.compare_spec my mz),
      (Pos.compare_spec mx mz); simpl; try done; try lia.
Qed.

End Rounding.

Lemma add_nonneg a d :
  (0 <=? a)%float = true -> (0 <=? d)%float = true -> (0 <=? a + d)%float = true.
Proof.
  rewrite !nonneg_spec, add_spec. apply SFadd_nonneg.
Qed.

(** In binary64 a sum of two numbers that are not negative is not
    below the first: rounding does not take the sum below a number of
    the format. *)
Lemma add_ge a d :
  (0 <=? a)%float = true -> (0 <=? d)%float = true ->
  (a <=? a + d)%float = true.
Proof.
  rewrite !nonneg_spec, leb_spec, add_spec. intros Ha Hd.
  apply SFadd_ge; try done; apply Prim2SF_valid.
Qed.

Lemma leb_trans x y z :
  (x <=? y)%float = true -> (y <=? z)%float = true -> (x <=? z)%float = true.
Proof. rewrite !leb_spec. apply SFleb_trans. Qed.

Lemma SFcompare_antisym x y :
  SFcompare y x = CompOpp <$> SFcompare x y.
Proof.
  destruct x as [sx|sx| |sx mx ex], y as [sy|sy| |sy my ey]; simpl; try done;
    try (destruct sx; done); try (destruct sy; done); try (destruct sx, sy; done).
  destruct sx, sy; simpl; try done; f_equal;
    rewrite (Z.compare_antisym ex ey); destruct (ex ?= ey)%Z; simpl; try done.
  - exact (f_equal CompOpp (Pos.compare_antisym mx my)).
  - exact (Pos.compare_antisym mx my).
Qed.

Lemma is_nan_compare x :
  is_nan x = false -> SFcompare (Prim2SF x) (Prim2SF x) = Some Eq.
Proof.
  unfold is_nan. intros H. apply negb_false_iff in H.
  rewrite FloatAxioms.eqb_spec in H. unfold SFeqb in H.
  destruct (SFcompare _ _) as [[]|]; done.
Qed.

Lemma compare_defined x y :
  is_nan x = false -> is_nan y = false ->
  is_Some (SFcompare (Prim2SF x) (Prim2SF y)).
Proof.
  intros Hx Hy. apply is_nan_compare in Hx, Hy.
  destruct (Prim2SF x), (Prim2SF y); simpl in *; try done; eauto.
Qed.

Lemma nonneg_number x : (0 <=? x)%float = true -> is_nan x = false.
Proof.
  rewrite nonneg_spec. unfold is_nan. rewrite FloatAxioms.eqb_spec. unfold SFeqb.
  destruct (Prim2SF x) as [s|s| |s m e] eqn:E; simpl; try done.
  - by destruct s.
  - destruct s; [done|]. intros _.
    by rewrite Z.compare_refl, Pos.compare_cont_refl.
Qed.

Lemma leb_of_compare x y c :
  SFcompare (Prim2SF x) (Prim2SF y) = Some c -> c <> Gt -> (x <=? y)%float = true.
Proof. rewrite leb_spec. unfold SFleb. intros ->. by destruct c. Qed.

Lemma leb_refl x : (0 <=? x)%float = true -> (x <=? x)%float = true.
Proof.
  intros Hx.
  apply (leb_of_compare x x Eq); [|done].
  by apply is_nan_compare, nonneg_number.
Qed.

Lemma Math_max_number a b :
  is_nan a = false -> is_nan b = false ->
  (Math_max a b = a \/ Math_max a b = b) /\
  (a <=? Math_max a b)%float = true /\ (b <=? Math_max a b)%float = true.
Proof.
  intros Ha Hb. unfold Math_max. rewrite Ha, Hb. simpl.
  pose proof (is_nan_compare a Ha) as Haa. pose proof (is_nan_compare b Hb) as Hbb.
  destruct (compare_defined a b Ha Hb) as [c Hc].
  pose proof (SFcompare_antisym (Prim2SF a) (Prim2SF b)) as Hanti.
  rewrite Hc in Hanti. simpl in Hanti.
  rewrite !ltb_spec. unfold SFltb. rewrite Hc, Hanti. destruct c; simpl.
  - destruct (is_zero a && get_sign a).
    + split; [by right|]. split; by eapply leb_of_compare.
    + split; [by left|]. split; by eapply leb_of_compare.
  - split; [by right|]. split; by eapply leb_of_compare.
  - split; [by left|]. split; by eapply leb_of_compare.
Qed.

Lemma seconds_number (t : Seconds) : is_nan (seconds t) = false.
Proof. apply nonneg_number, seconds_nonneg. Qed.

(** [Math.max] of a clock that is not negative and a time of the
    platform: not negative, and not below either of them. *)
Lemma Math_max_nonneg clock (now : Seconds) :
  (0 <=? clock)%float = true ->
  (0 <=? Math_max clock (seconds now))%float = true /\
  (clock <=? Math_max clock (seconds now))%float = true /\
  (seconds now <=? Math_max clock (seconds now))%float = true.
Proof.
  intros Hc.
  destruct (Math_max_number clock (seconds now) (nonneg_number _ Hc)
              (seconds_number now)) as ([-> | ->] & Hl & Hr).
  - done.
  - split; [apply seconds_nonneg|done].
Qed.

End FloatFacts.

(** ** The transcript reducers *)
Module TranscriptFacts.
Import Transcript.

Lemma slice_init_snoc (init : list ChatMessage) (l : ChatMessage) :
  slice_init (init ++ [l]) = init.
Proof. unfold slice_init. apply removelast_last. Qed.

Lemma pending_tail_nil (r : Role) : pending_tail r [] = None.
Proof. reflexivity. Qed.

Lemma pending_tail_snoc (r : Role) (init : list ChatMessage) (l : ChatMessage) :
  pending_tail r (init ++ [l]) =
  if bool_decide (role l = r) && negb (isComplete l) then Some l else None.
Proof. unfold pending_tail. by rewrite last_snoc. Qed.

Lemma pending_tail_Some (r : Role) (prev : list ChatMessage) (l : ChatMessage) :
  pending_tail r prev = Some l ->
  exists init, prev = init ++ [l] /\ role l = r /\ isComplete l = false.
Proof.
  unfold pending_tail. destruct (last prev) as [x|] eqn:Hlast; [|done].
  apply last_Some in Hlast as [init ->].
  destruct (bool_decide (role x = r)) eqn:Hr; simpl; [|done].
  destruct (isComplete x) eqn:Hc; simpl; [done|].
  intros [= <-]. exists init. apply bool_decide_eq_true in Hr. done.
Qed.

Lemma pending_tail_complete (r : Role) (init : list ChatMessage) (l : ChatMessage) :
  isComplete l = true -> pending_tail r (init ++ [l]) = None.
Proof.
  intros Hc. rewrite pending_tail_snoc, Hc.
  by destruct (bool_decide (role l = r)).
Qed.

(** The two branches of each reducer, as equations on a transcript
    split at its tail. *)
Lemma update_in_place now r t init l :
  role l = r -> isComplete l = false ->
  updateStreamingMessage now r t (init ++ [l]) = init ++ [with_text l t].
Proof.
  intros Hr Hc. unfold updateStreamingMessage.
  rewrite pending_tail_snoc, Hc, bool_decide_eq_true_2 by done. simpl.
  by rewrite slice_init_snoc.
Qed.

Lemma commit_in_place now r t init l :
  role l = r -> isComplete l = false ->
  commitMessage now r t (init ++ [l]) = init ++ [with_text_complete l t].
Proof.
  intros Hr Hc. unfold commitMessage.
  rewrite pending_tail_snoc, Hc, bool_decide_eq_true_2 by done. simpl.
  by rewrite slice_init_snoc.
Qed.

Lemma update_cases now r t prev :
  (exists init l, prev = init ++ [l] /\ role l = r /\ isComplete l = false /\
     updateStreamingMessage now r t prev = init ++ [with_text l t]) \/
  (pending_tail r prev = None /\
     updateStreamingMessage now r t prev = prev ++ [new_turn now r t false]).
Proof.
  destruct (pending_tail r prev) as [l|] eqn:Hp.
  - left. destruct (pending_tail_Some _ _ _ Hp) as (init & -> & Hr & Hc).
    exists init, l. by rewrite update_in_place.
  - right. unfold updateStreamingMessage. by rewrite Hp.
Qed.

Lemma commit_cases now r t prev :
  (exists init l, prev = init ++ [l] /\ role l = r /\ isComplete l = false /\
     commitMessage now r t prev = init ++ [with_text_complete l t]) \/
  (pending_tail r prev = None /\
     commitMessage now r t prev = prev ++ [new_turn now r t true]).
Proof.
  destruct (pending_tail r prev) as [l|] eqn:Hp.
  - left. destruct (pending_tail_Some _ _ _ Hp) as (init & -> & Hr & Hc).
    exists init, l. by rewrite commit_in_place.
  - right. unfold commitMessage. by rewrite Hp.
Qed.

(** After a partial the tail is a pending turn of that speaker with
    the fragment as its text. *)
Lemma update_tail now r t prev :
  exists init l, updateStreamingMessage now r t prev = init ++ [l] /\
    role l = r /\ isComplete l = false /\ text l = t.
Proof.
  destruct (update_cases now r t prev) as [(init & l & -> & Hr & Hc & ->)|[_ ->]].
  - by exists init, (with_text l t).
  - by exists prev, (new_turn now r t false).
Qed.

Lemma update_length now r t prev :
  length prev <= length (updateStreamingMessage now r t prev) <= S (length prev).
Proof.
  destruct (update_cases now r t prev) as [(init & l & -> & _ & _ & ->)|[_ ->]];
    rewrite !length_app; simpl; lia.
Qed.

Lemma reducers_run_snoc ops o prev : run (ops ++ [o]) prev = apply_op o (run ops prev).
Proof. unfold run. by rewrite foldl_app. Qed.

Lemma reducers_run_cons o ops prev : run (o :: ops) prev = run ops (apply_op o prev).
Proof. reflexivity. Qed.

(** Once the tail is a pending turn of [r], further partials of [r]
    keep the length. *)
Lemma partials_in_place r calls init l :
  role l = r -> isComplete l = false ->
  length (run (partials r calls) (init ++ [l])) = length (init ++ [l]).
Proof.
  revert l. induction calls as [|[now t] calls IH]; intros l Hr Hc; [done|].
  simpl partials. rewrite reducers_run_cons. simpl apply_op.
  rewrite update_in_place by done.
  rewrite IH by done. by rewrite !length_app.
Qed.

Lemma handover_ok_snoc init l x :
  handover_ok (init ++ [l]) = true ->
  isComplete l || negb (bool_decide (role l = role x)) = true ->
  handover_ok (init ++ [l; x]) = true.
Proof.
  intros H Hx. induction init as [|a init IH].
  - simpl. by rewrite Hx.
  - simpl in H |- *. apply andb_true_iff in H as [Ha H].
    rewrite (IH H), andb_true_r.
    destruct init; simpl in *; done.
Qed.

Lemma handover_ok_replace init l l' :
  handover_ok (init ++ [l]) = true -> role l' = role l ->
  handover_ok (init ++ [l']) = true.
Proof.
  intros H Hr. induction init as [|a init IH]; [done|].
  simpl in H |- *. apply andb_true_iff in H as [Ha H].
  rewrite (IH H), andb_true_r.
  destruct init; simpl in *; [by rewrite Hr|done].
Qed.

Lemma handover_ok_append now r t c prev :
  handover_ok prev = true -> pending_tail r prev = None ->
  handover_ok (prev ++ [new_turn now r t c]) = true.
Proof.
  intros H Hp. destruct (last prev) as [l|] eqn:Hlast.
  - apply last_Some in Hlast as [init ->].
    rewrite <- (assoc_L (++)). apply handover_ok_snoc; [done|].
    rewrite pending_tail_snoc in Hp. simpl.
    destruct (isComplete l); [done|]. simpl in *.
    by destruct (bool_decide (role l = r)).
  - apply last_None in Hlast as ->. done.
Qed.

Lemma handover_ok_step o prev :
  handover_ok prev = true -> handover_ok (apply_op o prev) = true.
Proof.
  intros H. destruct o as [now r t|now r t]; simpl.
  - destruct (update_cases now r t prev) as [(init & l & -> & _ & _ & ->)|[Hp ->]].
    + by eapply handover_ok_replace.
    + by apply handover_ok_append.
  - destruct (commit_cases now r t prev) as [(init & l & -> & _ & _ & ->)|[Hp ->]].
    + by eapply handover_ok_replace.
    + by apply handover_ok_append.
Qed.

(** The reducers keep completed turns: they rewrite an incomplete
    tail or append. *)
Lemma keeps_complete_refl msgs : keeps_complete msgs msgs.
Proof. by intros i m. Qed.

Lemma keeps_complete_trans a b c :
  keeps_complete a b -> keeps_complete b c -> keeps_complete a c.
Proof. intros Hab Hbc i m Hi Hc. apply Hbc; [|done]. by apply Hab. Qed.

Lemma keeps_complete_app msgs more : keeps_complete msgs (msgs ++ more).
Proof. intros i m Hi _. by apply lookup_app_l_Some. Qed.

Lemma keeps_complete_tail init l l' :
  isComplete l = false -> keeps_complete (init ++ [l]) (init ++ [l']).
Proof.
  intros Hl i m Hi Hm.
  apply lookup_app_Some in Hi as [Hi|[_ Hi]].
  - by apply lookup_app_l_Some.
  - apply list_lookup_singleton_Some in Hi as [_ ->]. congruence.
Qed.

Lemma update_keeps_complete now r t prev :
  keeps_complete prev (updateStreamingMessage now r t prev).
Proof.
  destruct (update_cases now r t prev) as [(init & l & -> & _ & Hc & ->)|[_ ->]].
  - by apply keeps_complete_tail.
  - apply keeps_complete_app.
Qed.

Lemma commit_keeps_complete now r t prev :
  keeps_complete prev (commitMessage now r t prev).
Proof.
  destruct (commit_cases now r t prev) as [(init & l & -> & _ & Hc & ->)|[_ ->]].
  - by apply keeps_complete_tail.
  - apply keeps_complete_app.
Qed.

(** After a commit the tail is a completed turn of that speaker with
    the committed text. *)
Lemma commit_tail now r t prev :
  exists init l, commitMessage now r t prev = init ++ [l] /\
    role l = r /\ isComplete l = true /\ text l = t.
Proof.
  destruct (commit_cases now r t prev) as [(init & l & -> & Hr & Hc & ->)|[_ ->]].
  - by exists init, (with_text_complete l t).
  - by exists prev, (new_turn now r t true).
Qed.

End TranscriptFacts.

Module TranscriptClaims.
Import Transcript TranscriptFacts.

(** C7. Any [n >= 1] calls of [updateStreamingMessage] for one
    speaker, with no commit between them and from any transcript,
    add at most one turn (and remove none), and the tail then carries
    the fragment of the latest call: each partial replaces the text
    of the pending tail instead of adding a turn. *)
Theorem partials_one_turn_latest_text (r : Role) (prev : list ChatMessage)
    (calls : list (Stamp * string)) (now : Stamp) (t : string) :
  let result := run (partials r (calls ++ [(now, t)])) prev in
  length prev <= length result <= S (length prev) /\
  text <$> last result = Some t.
Proof.
  simpl. split.
  - destruct (calls ++ [(now, t)]) as [|[now0 t0] rest] eqn:Hcalls.
    { by destruct calls. }
    simpl partials. rewrite reducers_run_cons. simpl apply_op.
    destruct (update_tail now0 r t0 prev) as (init & l & Hupd & Hr & Hc & _).
    pose proof (update_length now0 r t0 prev) as Hlen.
    rewrite Hupd in *. by rewrite partials_in_place.
  - unfold partials. rewrite map_app. simpl map at 2.
    rewrite reducers_run_snoc. simpl apply_op.
    destruct (update_tail now r t
      (run (map (fun c => Partial c.1 r c.2) calls) prev))
      as (init & l & -> & _ & _ & Ht).
    rewrite last_snoc. simpl. by rewrite Ht.
Qed.

(** C1 (as the code has it). A second [commitMessage] with the same
    speaker and text finds the tail complete and appends one more
    completed turn with that text: the result is the result of one
    call followed by a new turn, so it is one turn longer. *)
Theorem commit_twice_appends (now1 now2 : Stamp) (r : Role) (t : string)
    (prev : list ChatMessage) :
  commitMessage now2 r t (commitMessage now1 r t prev) =
  commitMessage now1 r t prev ++ [new_turn now2 r t true].
Proof.
  destruct (commit_cases now1 r t prev) as [(init & l & -> & _ & _ & ->)|[_ ->]];
    unfold commitMessage at 1; by rewrite pending_tail_complete.
Qed.

(** C1 fails as stated: two calls of [commitMessage user "Hello"] on
    the empty transcript leave two completed turns, which is not the
    result of one call. *)
Lemma commit_twice_not_once :
  let once := commitMessage (mkStamp 1000 1000) user "Hello" [] in
  let twice := commitMessage (mkStamp 1001 1001) user "Hello" once in
  twice <> once /\ completed once = 1 /\ completed twice = 2.
Proof. vm_compute. split; [discriminate|done]. Qed.

(** C2 (as the code has it). In every transcript built from the empty
    one by calls of the two reducers, an incomplete turn is never
    directly followed by a turn of the same speaker. What the next
    call does depends on the tail alone. A call for the speaker of an
    incomplete tail rewrites the tail in place: the transcript keeps
    its length and every other turn, and the tail keeps its [id],
    [role] and [timestamp]. Every other call appends one new turn:
    after an incomplete tail only a call for the other speaker, and
    else after a complete tail or on the empty transcript. *)
Theorem reachable_handover_ok (ops : list Op) (o : Op) :
  let prev := run ops [] in
  let next := run (ops ++ [o]) [] in
  handover_ok prev = true /\
  (forall init l, prev = init ++ [l] ->
     isComplete l = false -> role l = op_role o ->
     next = init ++ [op_rewrite o l] /\ length next = length prev /\
     id (op_rewrite o l) = id l /\ role (op_rewrite o l) = role l /\
     timestamp (op_rewrite o l) = timestamp l) /\
  (forall init l, prev = init ++ [l] ->
     isComplete l = false -> role l <> op_role o ->
     next = prev ++ [op_append o]) /\
  (forall init l, prev = init ++ [l] ->
     isComplete l = true -> next = prev ++ [op_append o]) /\
  (prev = [] -> next = [op_append o]).
Proof.
  simpl. rewrite reducers_run_snoc.
  split; [|split; [|split; [|split]]].
  - induction ops as [|x ops IH] using rev_ind; [done|].
    rewrite reducers_run_snoc. by apply handover_ok_step.
  - intros init l -> Hc Hr. split.
    + destruct o; simpl in *;
        [by apply update_in_place|by apply commit_in_place].
    + split; [|by destruct o].
      destruct o; simpl in *;
        [rewrite update_in_place by done|rewrite commit_in_place by done];
        by rewrite !length_app.
  - intros init l -> Hc Hr.
    assert (pending_tail (op_role o) (init ++ [l]) = None) as Hp.
    { rewrite pending_tail_snoc, bool_decide_eq_false_2 by done. done. }
    destruct o; simpl in *;
      unfold updateStreamingMessage, commitMessage; by rewrite Hp.
  - intros init l -> Hc.
    pose proof (pending_tail_complete (op_role o) init l Hc) as Hp.
    destruct o; simpl in *;
      unfold updateStreamingMessage, commitMessage; by rewrite Hp.
  - intros ->. by destruct o.
Qed.

(** The user's pending "Hel": the next partial of the user rewrites
    it, and a commit of the tutor is appended behind it. *)
Lemma handover_scenario :
  let s1 := mkStamp 1000 1000 in
  let s2 := mkStamp 1001 1001 in
  run [Partial s1 user "Hel"; Partial s2 user "Hello"] []
  = [new_turn s1 user "Hello" false] /\
  run [Partial s1 user "Hel"; Commit s2 model "Hi"] []
  = [new_turn s1 user "Hel" false; new_turn s2 model "Hi" true].
Proof.
  intros s1 s2. split.
  - exact (proj1 (proj1 (proj2 (reachable_handover_ok [Partial s1 user "Hel"]
                                  (Partial s2 user "Hello")))
                    [] (new_turn s1 user "Hel" false) eq_refl eq_refl eq_refl)).
  - refine (proj1 (proj2 (proj2 (reachable_handover_ok [Partial s1 user "Hel"]
                                   (Commit s2 model "Hi"))))
              [] (new_turn s1 user "Hel" false) eq_refl eq_refl _).
    discriminate.
Defined.

(** C2 fails as stated: a partial of the user followed by a partial of
    the tutor leaves two incomplete turns, the first of which is not
    the tail; the tutor's turn was appended while the tail was
    incomplete. *)
Lemma two_pending_turns :
  let msgs := run [Partial (mkStamp 1000 1000) user "Hello";
                   Partial (mkStamp 1001 1001) model "Hi"] [] in
  single_pending_at_tail msgs = false /\
  isComplete <$> msgs = [false; false].
Proof. vm_compute. done. Qed.

End TranscriptClaims.

(** ** The streaming backend *)
Module GeminiFacts.
Import GeminiLive TranscriptFacts FloatFacts.

Lemma duration_nonneg (b : AudioBuffer) : (0 <=? duration b)%float = true.
Proof. apply seconds_nonneg. Qed.

Section Playback.
Variable pcmToAudioBuffer : string -> AudioBuffer.

Local Abbreviation schedule := (schedule pcmToAudioBuffer).

Lemma schedule_started now data st :
  started (schedule now data st) =
  started st ++ [mkStarted (length (started st))
                   (Math_max (nextStartTimeRef st) (seconds now))
                   (pcmToAudioBuffer data)].
Proof. reflexivity. Qed.

Lemma schedule_clock now data st :
  nextStartTimeRef (schedule now data st) =
  (Math_max (nextStartTimeRef st) (seconds now)
   + duration (pcmToAudioBuffer data))%float.
Proof. reflexivity. Qed.

End Playback.

Section Session.
Variable float32ToPCM16 : list float -> string.
Variable pcmToAudioBuffer : string -> AudioBuffer.

Local Abbreviation step := (step float32ToPCM16 pcmToAudioBuffer).
Local Abbreviation run := (run float32ToPCM16 pcmToAudioBuffer).
Local Abbreviation onmessage := (onmessage pcmToAudioBuffer).
Local Abbreviation handle_audio := (handle_audio pcmToAudioBuffer).

Lemma session_run_snoc evs e st : run (evs ++ [e]) st = step (run evs st) e.
Proof. unfold GeminiLive.run. by rewrite foldl_app. Qed.

Lemma handle_audio_messages msg clk st :
  messages (handle_audio msg clk st) = messages st.
Proof.
  unfold GeminiLive.handle_audio.
  destruct (truthy (base64Audio msg)); [|done].
  by destruct (outputContextRef st).
Qed.

Lemma commit_buffer_keeps now r st :
  Transcript.keeps_complete (messages st) (messages (commit_buffer now r st)).
Proof.
  unfold commit_buffer.
  destruct r, (nonempty _); simpl;
    first [apply commit_keeps_complete | apply keeps_complete_refl].
Qed.

Lemma handle_output_keeps msg clk st :
  Transcript.keeps_complete (messages st) (messages (handle_output msg clk st)).
Proof.
  unfold handle_output. destruct (truthy (outputText msg)); simpl;
    [apply update_keeps_complete | apply keeps_complete_refl].
Qed.

Lemma handle_input_keeps msg clk st :
  Transcript.keeps_complete (messages st) (messages (handle_input msg clk st)).
Proof.
  unfold handle_input. destruct (truthy (inputText msg)); simpl;
    [apply update_keeps_complete | apply keeps_complete_refl].
Qed.

Lemma handle_turnComplete_keeps msg clk st :
  Transcript.keeps_complete (messages st)
    (messages (handle_turnComplete msg clk st)).
Proof.
  unfold handle_turnComplete. destruct (turnComplete msg);
    [|apply keeps_complete_refl].
  eapply keeps_complete_trans; [|apply commit_buffer_keeps].
  apply commit_buffer_keeps.
Qed.

Lemma handle_interrupted_keeps msg clk st :
  Transcript.keeps_complete (messages st)
    (messages (handle_interrupted msg clk st)).
Proof.
  unfold handle_interrupted. destruct (interrupted msg);
    [|apply keeps_complete_refl].
  apply (commit_buffer_keeps _ _ (reset_clock (stop_sources st))).
Qed.

Lemma onmessage_keeps msg clk st :
  Transcript.keeps_complete (messages st) (messages (onmessage msg clk st)).
Proof.
  unfold GeminiLive.onmessage.
  eapply keeps_complete_trans; [|apply handle_interrupted_keeps].
  eapply keeps_complete_trans; [|apply handle_turnComplete_keeps].
  eapply keeps_complete_trans; [|apply handle_input_keeps].
  eapply keeps_complete_trans; [|apply handle_output_keeps].
  rewrite handle_audio_messages. apply keeps_complete_refl.
Qed.

Lemma step_keeps e st :
  Transcript.keeps_complete (messages st) (messages (step st e)).
Proof.
  destruct e; simpl; try apply keeps_complete_refl.
  - unfold connect. destruct (nonempty (apiKey st)); apply keeps_complete_refl.
  - destruct r; apply keeps_complete_refl.
  - unfold onopen. simpl. destruct (_ || _); apply keeps_complete_refl.
  - unfold audio_frame. destruct (processorNode st) as [p|];
      [|apply keeps_complete_refl].
    unfold onaudioprocess. destruct (handlerMicOn p); simpl;
      [|apply keeps_complete_refl].
    destruct (sessionPromiseRef st); apply keeps_complete_refl.
  - apply onmessage_keeps.
Qed.

(** What an event that does not reset the clock does to the playback
    side: nothing, or one call of the scheduling block. *)
Lemma commit_buffer_started now r st :
  started (commit_buffer now r st) = started st.
Proof. unfold commit_buffer. by destruct r, (nonempty _). Qed.

Lemma commit_buffer_clock now r st :
  nextStartTimeRef (commit_buffer now r st) = nextStartTimeRef st.
Proof. unfold commit_buffer. by destruct r, (nonempty _). Qed.

Lemma transcript_handlers_playback msg clk st :
  interrupted msg = false ->
  let st' := handle_interrupted msg clk (handle_turnComplete msg clk
               (handle_input msg clk (handle_output msg clk st))) in
  started st' = started st /\ nextStartTimeRef st' = nextStartTimeRef st.
Proof.
  intros Hint. simpl. unfold handle_interrupted. rewrite Hint.
  unfold handle_turnComplete.
  assert (forall x, started (handle_input msg clk (handle_output msg clk x)) = started x
                 /\ nextStartTimeRef (handle_input msg clk (handle_output msg clk x))
                    = nextStartTimeRef x) as Hio.
  { intros x. unfold handle_input, handle_output.
    by destruct (truthy (outputText msg)), (truthy (inputText msg)). }
  destruct (Hio st) as [Hs Hc].
  destruct (turnComplete msg); [|done].
  by rewrite !commit_buffer_started, !commit_buffer_clock.
Qed.

Lemma step_playback e st :
  resets_clock e = false ->
  (started (step st e) = started st /\
   nextStartTimeRef (step st e) = nextStartTimeRef st) \/
  (exists now data,
     started (step st e) = started (GeminiLive.schedule pcmToAudioBuffer now data st) /\
     nextStartTimeRef (step st e)
     = nextStartTimeRef (GeminiLive.schedule pcmToAudioBuffer now data st)).
Proof.
  intros He. destruct e; simpl in *; try (by left); try done.
  - left. unfold connect. by destruct (nonempty (apiKey st)).
  - left. by destruct r.
  - left. unfold onopen. simpl. by destruct (_ || _).
  - left. unfold audio_frame. destruct (processorNode st) as [proc|]; [|done].
    unfold onaudioprocess. destruct (handlerMicOn proc); simpl; [|done].
    by destruct (sessionPromiseRef st).
  - unfold GeminiLive.onmessage.
    destruct (transcript_handlers_playback msg clk (handle_audio msg clk st) He)
      as [-> ->].
    unfold GeminiLive.handle_audio.
    destruct (truthy (base64Audio msg)) as [data|]; [|by left].
    destruct (outputContextRef st); [|by left].
    right. by exists (currentTime clk), data.
Qed.

Lemma back_to_back_snoc clock l s :
  back_to_back l -> ends_by clock l -> (clock <=? when s)%float = true ->
  back_to_back (l ++ [s]).
Proof.
  intros Hl Hends Hs i j a b Hij Ha Hb.
  apply lookup_app_Some in Hb as [Hb|[Hge Hb]].
  - pose proof (lookup_lt_Some _ _ _ Hb) as Hj.
    rewrite lookup_app_l in Ha by lia. exact (Hl i j a b Hij Ha Hb).
  - apply list_lookup_singleton_Some in Hb as [Hj ->].
    rewrite lookup_app_l in Ha by lia.
    assert (a ∈ l) as Hin by (apply list_elem_of_lookup; eauto).
    exact (leb_trans _ _ _ (Hends a Hin) Hs).
Qed.

Lemma ends_by_snoc clock l s :
  ends_by clock l -> (0 <=? when s)%float = true ->
  (clock <=? when s)%float = true ->
  ends_by (when s + duration (buffer s))%float (l ++ [s]).
Proof.
  intros Hends H0 Hs a Ha.
  pose proof (add_ge (when s) (duration (buffer s)) H0
                (duration_nonneg (buffer s))) as Hgrow.
  apply elem_of_app in Ha as [Ha|Ha].
  - exact (leb_trans _ _ _ (leb_trans _ _ _ (Hends a Ha) Hs) Hgrow).
  - apply list_elem_of_singleton in Ha as ->.
    apply leb_refl, add_nonneg; [done|apply duration_nonneg].
Qed.

(** While no event resets the clock, the clock stays a number that is
    not negative and does not go back, and the sources started follow
    one another. *)
Lemma run_playback evs st :
  (0 <=? nextStartTimeRef st)%float = true ->
  Forall (fun e => resets_clock e = false) evs ->
  (0 <=? nextStartTimeRef (run evs st))%float = true /\
  (nextStartTimeRef st <=? nextStartTimeRef (run evs st))%float = true /\
  exists new, started (run evs st) = started st ++ new /\
    back_to_back new /\ ends_by (nextStartTimeRef (run evs st)) new.
Proof.
  intros Hst. induction evs as [|e evs IH] using rev_ind; intros Hevs.
  - split; [done|]. split; [by apply leb_refl|].
    exists []. split; [by rewrite app_nil_r|]. split.
    + intros i j a b _ Ha. done.
    + intros a Ha. by apply elem_of_nil in Ha.
  - apply Forall_app in Hevs as [Hevs He]. apply Forall_inv in He.
    destruct (IH Hevs) as (Hclock & Hgrow & new & Hnew & Hord & Hends).
    rewrite session_run_snoc.
    destruct (step_playback e (run evs st) He)
      as [[-> ->]|(now & data & -> & ->)].
    + split; [done|]. split; [done|]. by exists new.
    + rewrite schedule_started, schedule_clock, Hnew.
      destruct (Math_max_nonneg _ now Hclock) as (Hmax & Hge & _).
      pose proof (add_ge _ (duration (pcmToAudioBuffer data)) Hmax
                    (duration_nonneg _)) as Hadd.
      split; [by apply add_nonneg; [|apply duration_nonneg]|].
      split; [exact (leb_trans _ _ _ (leb_trans _ _ _ Hgrow Hge) Hadd)|].
      set (s := mkStarted (length (started st ++ new))
                  (Math_max (nextStartTimeRef (run evs st)) (seconds now))
                  (pcmToAudioBuffer data)).
      exists (new ++ [s]). split; [by rewrite (assoc_L (++))|]. split.
      * by apply (back_to_back_snoc (nextStartTimeRef (run evs st))).
      * by apply (ends_by_snoc (nextStartTimeRef (run evs st)) new s).
Qed.

(** The clock is never negative and never NaN. *)
Lemma step_clock_nonneg e st :
  (0 <=? nextStartTimeRef st)%float = true ->
  (0 <=? nextStartTimeRef (step st e))%float = true.
Proof.
  intros Hst. destruct (resets_clock e) eqn:He.
  - destruct e; simpl in He; try done.
    simpl. unfold GeminiLive.onmessage, handle_interrupted. rewrite He.
    by rewrite commit_buffer_clock.
  - exact (proj1 (run_playback [e] st Hst
                   (Forall_cons_2 _ _ _ He (Forall_nil_2 _)))).
Qed.

Lemma run_clock_nonneg evs key :
  (0 <=? nextStartTimeRef (run evs (initial key)))%float = true.
Proof.
  induction evs as [|e evs IH] using rev_ind; [done|].
  rewrite session_run_snoc. by apply step_clock_nonneg.
Qed.

Lemma run_keeps evs st :
  Transcript.keeps_complete (messages st) (messages (run evs st)).
Proof.
  induction evs as [|e evs IH] using rev_ind; [apply keeps_complete_refl|].
  rewrite session_run_snoc. eapply keeps_complete_trans; [apply IH|apply step_keeps].
Qed.

(** The handler made by [onopen] never looks at the [isMicOn] cell:
    with the flag it was built with set, it publishes the volume of
    the frame and sends the frame, whatever the cell holds. *)
Lemma audio_frame_captured_flag inputData p st :
  processorNode st = Some p -> handlerMicOn p = true ->
  sessionPromiseRef st = true ->
  volume (audio_frame float32ToPCM16 inputData st) = rms inputData /\
  sent (audio_frame float32ToPCM16 inputData st) =
    sent st ++ [float32ToPCM16 inputData].
Proof.
  intros Hp Hflag Hs. unfold audio_frame, onaudioprocess.
  rewrite Hp, Hflag. simpl. by rewrite Hs.
Qed.

Lemma toggleMic_keeps_processor st :
  processorNode (toggleMic st) = processorNode st /\
  sessionPromiseRef (toggleMic st) = sessionPromiseRef st /\
  isMicOn (toggleMic st) = negb (isMicOn st).
Proof. done. Qed.

End Session.

End GeminiFacts.

Module GeminiClaims.
Import GeminiLive TranscriptFacts GeminiFacts.

(** C4, as the specification words it, does not hold: an interruption
    resets the clock, and the next payload is started at the time of
    its arrival whatever was scheduled before. In the run below the
    payload A of half a second is started at 0, the interruption
    arrives at 0.125 s and the payload B at 0.25 s: B starts at
    0.25 s, before A's start plus A's duration. *)
Lemma schedule_overlaps_after_interruption :
  exists a b : Started,
    scheduled_during Scenarios.pcm16 Scenarios.decode
      Scenarios.Gemini.barge_in Scenarios.Gemini.opened = [a; b] /\
    when a = 0%float /\ duration (buffer a) = 0.5%float /\
    when b = 0.25%float /\
    (when a + duration (buffer a) <=? when b)%float = false.
Proof. eexists _, _. vm_compute. done. Qed.

(** C4, amended. In every state that the hook reaches, a payload is
    started at [Math.max(outputClock, now)], which is the clock or the
    time of arrival and below neither, and the clock is then the sum of
    that start and the duration of the decoded buffer, as binary64
    rounds it; it is not below the start. So of two payloads that the
    hook schedules, A before B, with the clock not reset in between by
    an interruption or a disconnect, B starts no earlier than that sum
    of A's start and A's duration; and B starts no earlier than the
    time at which it arrived. *)
Theorem schedule_back_to_back (float32ToPCM16 : list float -> string)
    (pcmToAudioBuffer : string -> AudioBuffer)
    (key : string) (before : list Event) :
  let st := run float32ToPCM16 pcmToAudioBuffer before (initial key) in
  (forall (now : Seconds) (data : string),
     let st' := schedule pcmToAudioBuffer now data st in
     exists s : Started,
       started st' = started st ++ [s] /\
       buffer s = pcmToAudioBuffer data /\
       when s = Math_max (nextStartTimeRef st) (seconds now) /\
       (when s = nextStartTimeRef st \/ when s = seconds now) /\
       (nextStartTimeRef st <=? when s)%float = true /\
       (seconds now <=? when s)%float = true /\
       nextStartTimeRef st' = (when s + duration (buffer s))%float /\
       (when s <=? nextStartTimeRef st')%float = true) /\
  (forall (evs : list Event) (i j : nat) (a b : Started),
     Forall (fun e => resets_clock e = false) evs ->
     i < j ->
     scheduled_during float32ToPCM16 pcmToAudioBuffer evs st !! i = Some a ->
     scheduled_during float32ToPCM16 pcmToAudioBuffer evs st !! j = Some b ->
     (when a + duration (buffer a) <=? when b)%float = true).
Proof.
  intros st.
  pose proof (run_clock_nonneg float32ToPCM16 pcmToAudioBuffer before key)
    as Hclock. fold st in Hclock.
  split.
  - intros now data. simpl. eexists. split; [reflexivity|]. simpl.
    destruct (FloatFacts.Math_max_number (nextStartTimeRef st) (seconds now)
                (FloatFacts.nonneg_number _ Hclock)
                (FloatFacts.seconds_number now)) as (Hor & Hl & Hr).
    repeat split; try done.
    apply FloatFacts.add_ge; [|apply duration_nonneg].
    by apply FloatFacts.Math_max_nonneg.
  - intros evs i j a b Hevs Hij Ha Hb.
    destruct (run_playback float32ToPCM16 pcmToAudioBuffer evs st Hclock Hevs)
      as (_ & _ & new & Hnew & Hord & _).
    unfold scheduled_during in Ha, Hb.
    rewrite Hnew, drop_app_length in Ha, Hb.
    exact (Hord i j a b Hij Ha Hb).
Qed.

(** The two payloads of the scenario: the second arrives at 0.125 s,
    while the first is playing, and starts at the clock that the first
    left, 0.5 s. *)
Lemma schedule_back_to_back_scenario :
  exists a b : Started,
    started Scenarios.Gemini.speaking = [a; b] /\
    when b = 0.5%float /\
    (when a + duration (buffer a) <=? when b)%float = true.
Proof.
  eexists _, _. split; [vm_compute; reflexivity|]. split; [reflexivity|].
  apply (proj2 (schedule_back_to_back Scenarios.pcm16 Scenarios.decode "key"
                  [Connect; MicSettled Scenarios.Gemini.env MicGranted;
                   OnOpen Scenarios.Gemini.env])
           Scenarios.Gemini.tutor_speaks 0 1);
    [repeat constructor | lia | reflexivity | reflexivity].
Defined.

Lemma commit_buffer_playback now r st :
  audioSourcesRef (commit_buffer now r st) = audioSourcesRef st /\
  nextStartTimeRef (commit_buffer now r st) = nextStartTimeRef st /\
  stopped (commit_buffer now r st) = stopped st.
Proof. unfold commit_buffer. by destruct r, (nonempty _). Qed.

(** C5. When a message carries the interruption flag, every source
    that is active when the flag is handled is stopped, the set of
    active sources is emptied and the output clock is reset to zero.
    If the accumulated tutor transcription is not empty it is
    committed at once: the tail of the transcript is then a completed
    tutor turn with exactly that text, the accumulation buffer is
    cleared, and no later event of the session changes that turn. *)
Theorem interruption_stops_and_commits
    (float32ToPCM16 : list float -> string)
    (pcmToAudioBuffer : string -> AudioBuffer)
    (st : State) (msg : LiveServerMessage) (clk : MessageClock) :
  interrupted msg = true ->
  let pre := handle_turnComplete msg clk (handle_input msg clk
               (handle_output msg clk (handle_audio pcmToAudioBuffer msg clk st))) in
  let st' := onmessage pcmToAudioBuffer msg clk st in
  (forall s, s ∈ audioSourcesRef pre -> s ∈ stopped st') /\
  audioSourcesRef st' = ∅ /\
  nextStartTimeRef st' = 0%float /\
  (nonempty (currentOutputTranscription pre) = true ->
   exists init m,
     messages st' = init ++ [m] /\
     role m = model /\ isComplete m = true /\
     text m = currentOutputTranscription pre /\
     currentOutputTranscription st' = "" /\
     forall evs,
       messages (run float32ToPCM16 pcmToAudioBuffer evs st') !! length init
       = Some m).
Proof.
  intros Hint pre st'.
  assert (st' = commit_buffer (atInterrupt clk) model
                  (reset_clock (stop_sources pre))) as Hst.
  { unfold st', onmessage, handle_interrupted. by rewrite Hint. }
  destruct (commit_buffer_playback (atInterrupt clk) model
              (reset_clock (stop_sources pre)))
    as (Hsources & Hclock & Hstopped).
  rewrite Hst. split; [|split; [|split]].
  - intros s Hs. rewrite Hstopped. simpl.
    apply elem_of_app. right. by apply elem_of_elements.
  - by rewrite Hsources.
  - by rewrite Hclock.
  - intros Hbuf. unfold commit_buffer. simpl. rewrite Hbuf. simpl.
    destruct (commit_tail (atInterrupt clk) model
                (currentOutputTranscription pre) (messages pre))
      as (init & m & Hcommit & Hr & Hc & Ht).
    exists init, m. rewrite Hcommit. repeat split; try done.
    intros evs. apply run_keeps; [|done]. simpl. rewrite Hcommit.
    by apply list_lookup_middle.
Qed.

(** The scenario of the specification: the tutor's turn reads "Today
    we will practice" and two buffers are playing when the
    interruption arrives. *)
Lemma interruption_scenario :
  let st' := onmessage Scenarios.decode Scenarios.Gemini.interruption
               (Scenarios.Gemini.clock Scenarios.at_250ms 2100)
               Scenarios.Gemini.speaking in
  audioSourcesRef st' = ∅ /\
  exists init m, messages st' = init ++ [m] /\ isComplete m = true /\
    text m = "Today we will practice".
Proof.
  destruct (interruption_stops_and_commits Scenarios.pcm16 Scenarios.decode
              Scenarios.Gemini.speaking Scenarios.Gemini.interruption
              (Scenarios.Gemini.clock Scenarios.at_250ms 2100) eq_refl)
    as (_ & Hset & _ & Hcommit).
  split; [exact Hset|].
  destruct (Hcommit eq_refl) as (init & m & Hm & _ & Hc & Ht & _).
  exists init, m. split; [exact Hm|]. split; [exact Hc|]. exact Ht.
Defined.

(** C3, on the streaming backend. The session is opened with the
    microphone on, the user mutes, and a frame arrives: the handler
    still holds the flag of the render in which [connect] was built,
    so it publishes the volume of the frame, 0.5, and sends the frame
    to the remote session. *)
Theorem mute_ignored_by_frame_handler :
  let st := Scenarios.Gemini.muted_frame in
  snd (connect (initial "key")) = Some Scenarios.Gemini.env /\
  connectionState st = CONNECTED /\
  isMicOn st = false /\
  volume st = 0.5%float /\
  PrimFloat.eqb (volume st) 0%float = false /\
  sent st = [Scenarios.pcm16 Scenarios.loud_frame].
Proof. vm_compute. done. Qed.

End GeminiClaims.

(** ** The fallback backend *)
Module TutorFacts.
Import GptTutor TranscriptFacts.

Lemma keeps_identity_refl msgs : Transcript.keeps_identity msgs msgs.
Proof. intros i m Hi. by exists m. Qed.

Lemma keeps_identity_trans a b c :
  Transcript.keeps_identity a b -> Transcript.keeps_identity b c ->
  Transcript.keeps_identity a c.
Proof.
  intros Hab Hbc i m Hi.
  destruct (Hab i m Hi) as (m' & Hi' & Hid & Hr).
  destruct (Hbc i m' Hi') as (m'' & Hi'' & Hid' & Hr').
  exists m''. split; [done|]. split; congruence.
Qed.

Lemma keeps_identity_app msgs more : Transcript.keeps_identity msgs (msgs ++ more).
Proof. intros i m Hi. exists m. split; [by apply lookup_app_l_Some|done]. Qed.

Lemma keeps_identity_tail init l l' :
  id l' = id l -> role l' = role l ->
  Transcript.keeps_identity (init ++ [l]) (init ++ [l']).
Proof.
  intros Hid Hr i m Hi.
  apply lookup_app_Some in Hi as [Hi|[Hge Hi]].
  - exists m. split; [by apply lookup_app_l_Some|done].
  - apply list_lookup_singleton_Some in Hi as [Hi ->].
    exists l'. split; [|done].
    apply list_lookup_middle. lia.
Qed.

Lemma update_keeps_identity now r t prev :
  Transcript.keeps_identity prev (Transcript.updateStreamingMessage now r t prev).
Proof.
  destruct (update_cases now r t prev) as [(init & l & -> & _ & _ & ->)|[_ ->]].
  - by apply keeps_identity_tail.
  - apply keeps_identity_app.
Qed.

Lemma commit_keeps_identity now r t prev :
  Transcript.keeps_identity prev (Transcript.commitMessage now r t prev).
Proof.
  destruct (commit_cases now r t prev) as [(init & l & -> & _ & _ & ->)|[_ ->]].
  - by apply keeps_identity_tail.
  - apply keeps_identity_app.
Qed.

(** The updater of the settled request, position by position. *)
Lemma replace_pending_lookup pendingId t prev i :
  replace_pending pendingId t prev !! i =
  (fun msg => if bool_decide (id msg = pendingId)
              then with_text_complete msg t else msg) <$> prev !! i.
Proof. unfold replace_pending. apply list_lookup_fmap. Qed.

Lemma replace_pending_length pendingId t prev :
  length (replace_pending pendingId t prev) = length prev.
Proof. unfold replace_pending. apply length_map. Qed.

Lemma replace_pending_keeps_identity pendingId t prev :
  Transcript.keeps_identity prev (replace_pending pendingId t prev).
Proof.
  intros i m Hi. rewrite replace_pending_lookup, Hi. simpl.
  eexists. split; [done|]. by destruct (bool_decide _).
Qed.

Lemma replace_pending_settles pendingId t prev m :
  m ∈ replace_pending pendingId t prev -> id m = pendingId ->
  text m = t /\ isComplete m = true.
Proof.
  unfold replace_pending. intros Hin Hid.
  apply list_elem_of_fmap in Hin as (m0 & -> & _).
  destruct (bool_decide (id m0 = pendingId)) eqn:Hd; [done|].
  by apply bool_decide_eq_false in Hd.
Qed.

Lemma onresult_messages ev clk st :
  messages (fst (onresult ev clk st)) =
  let t := trim (transcript ev) in
  let updated := Transcript.updateStreamingMessage (atUpdate clk) user t (messages st) in
  if isFinal ev
  then Transcript.commitMessage (atCommit clk) user t updated
         ++ [pending_turn (atPending clk)]
  else updated.
Proof. unfold onresult. by destruct (isFinal ev). Qed.

Lemma tutor_run_snoc evs e st : run (evs ++ [e]) st = step (run evs st) e.
Proof. unfold run. by rewrite foldl_app. Qed.

Lemma step_keeps_identity e st :
  Transcript.keeps_identity (messages st) (messages (step st e)).
Proof.
  destruct e; simpl; try apply keeps_identity_refl.
  - unfold connect. destruct (nonempty (apiKey st)); [|apply keeps_identity_refl].
    destruct supported; apply keeps_identity_refl.
  - unfold connect_resume. destruct r; [|apply keeps_identity_refl].
    simpl. destruct (inputContextRef st); apply keeps_identity_refl.
  - rewrite onresult_messages. simpl.
    destruct (isFinal ev); [|apply update_keeps_identity].
    eapply keeps_identity_trans; [apply update_keeps_identity|].
    eapply keeps_identity_trans; [apply commit_keeps_identity|].
    apply keeps_identity_app.
  - destruct c; simpl; apply replace_pending_keeps_identity.
  - unfold onend. destruct (_ && _); apply keeps_identity_refl.
  - unfold audio_frame. destruct (processorNode st); [|apply keeps_identity_refl].
    unfold onaudioprocess. destruct (negb _); apply keeps_identity_refl.
  - unfold toggleMic, recognition_stop, recognition_start.
    destruct (isMicOn st); simpl.
    + destruct (recognitionRef st); apply keeps_identity_refl.
    + destruct (bool_decide _); [|apply keeps_identity_refl].
      destruct (recognitionRef st); apply keeps_identity_refl.
  - unfold disconnect. simpl.
    destruct (recognitionRef st); apply keeps_identity_refl.
Qed.

Lemma run_keeps_identity evs st :
  Transcript.keeps_identity (messages st) (messages (run evs st)).
Proof.
  induction evs as [|e evs IH] using rev_ind; [apply keeps_identity_refl|].
  rewrite tutor_run_snoc.
  eapply keeps_identity_trans; [apply IH|apply step_keeps_identity].
Qed.

(** The frame handler of this hook reads the ref, and so follows the
    microphone switch: muted frames publish zero, and muting stops
    the recognition engine. *)
Lemma muted_frame_publishes_zero inputData st :
  processorNode st = true -> micStateRef st = false ->
  volume (audio_frame inputData st) = 0%float.
Proof.
  intros Hp Hm. unfold audio_frame, onaudioprocess. by rewrite Hp, Hm.
Qed.

Lemma toggleMic_off_halts st :
  isMicOn st = true -> recognitionRef st = true ->
  isMicOn (toggleMic st) = false /\ micStateRef (toggleMic st) = false /\
  volume (toggleMic st) = 0%float /\ listening (toggleMic st) = false.
Proof.
  intros Hon Href. unfold toggleMic, recognition_stop.
  by rewrite Hon, Href.
Qed.

End TutorFacts.

Module TutorClaims.
Import GptTutor TranscriptFacts TutorFacts.

(** C10. When a completion request settles, with a reply or by
    failing, the update keeps the length of the transcript and the
    position of every turn; a turn whose [id] differs from the
    pending id is left as it is, and a turn whose [id] equals it gets
    the settled text and is marked complete, with its [id], [role]
    and [timestamp] kept. This holds for whatever transcript the
    request finds when it settles. *)
Theorem completion_touches_only_pending (pendingId : string) (c : Completion)
    (st : State) :
  let st' := onresult_resume pendingId c st in
  length (messages st') = length (messages st) /\
  forall i msg, messages st !! i = Some msg ->
    (id msg <> pendingId -> messages st' !! i = Some msg) /\
    (id msg = pendingId ->
       exists msg', messages st' !! i = Some msg' /\
         id msg' = id msg /\ role msg' = role msg /\
         timestamp msg' = timestamp msg /\
         text msg' = settled_text c /\ isComplete msg' = true).
Proof.
  simpl.
  assert (messages (onresult_resume pendingId c st) =
          replace_pending pendingId (settled_text c) (messages st)) as ->.
  { by destruct c. }
  split; [apply replace_pending_length|].
  intros i msg Hi. rewrite replace_pending_lookup, Hi. simpl. split.
  - intros Hne. by rewrite bool_decide_eq_false_2.
  - intros Heq. rewrite bool_decide_eq_true_2 by done. by eexists.
Qed.

(** The scenario of the specification: the reply replaces the text of
    the placeholder, which is the second turn, and completes it. *)
Lemma completion_reply_scenario :
  let st' := onresult_resume "5000" (Replied Scenarios.Tutor.reply)
               Scenarios.Tutor.awaiting in
  exists msg', messages st' !! 1 = Some msg' /\
    role msg' = model /\ text msg' = Scenarios.Tutor.reply /\
    isComplete msg' = true.
Proof.
  destruct (proj2 (completion_touches_only_pending "5000"
                     (Replied Scenarios.Tutor.reply) Scenarios.Tutor.awaiting)
              1 (pending_turn (Scenarios.at_ms 5000)) eq_refl)
    as [_ Hsame].
  destruct (Hsame eq_refl) as (msg' & Hm & _ & Hr & _ & Ht & Hc).
  exists msg'. split; [exact Hm|]. split; [exact Hr|]. split; [exact Ht|exact Hc].
Defined.

(** C8. A final recognition result appends the placeholder turn and
    suspends on the completion request. Whatever the hook does in
    between, when that request fails the session goes to [ERROR] and
    the placeholder, still at its position and still the tutor's, is
    complete and shows the error text; no turn with the pending id is
    left incomplete. *)
Theorem completion_failure_marks_pending (ev : RecognitionResult)
    (clk : ResultClock) (st st1 : State) (pendingId : string)
    (evs : list Event) :
  onresult ev clk st = (st1, Some pendingId) ->
  let st' := onresult_resume pendingId Failed (run evs st1) in
  last (messages st1) = Some (pending_turn (atPending clk)) /\
  connectionState st' = ERROR /\
  (exists m, messages st' !! pred (length (messages st1)) = Some m /\
     id m = pendingId /\ role m = model /\
     text m = error_text /\ isComplete m = true) /\
  (forall m, m ∈ messages st' -> id m = pendingId ->
     text m = error_text /\ isComplete m = true).
Proof.
  intros Hres. simpl.
  assert (messages st1 = messages (fst (onresult ev clk st))) as Hmsgs
    by by rewrite Hres.
  rewrite onresult_messages in Hmsgs. simpl in Hmsgs.
  unfold onresult in Hres. destruct (isFinal ev); [|done].
  injection Hres as _ Hid.
  split; [rewrite Hmsgs; apply last_snoc|].
  split; [done|]. split.
  - assert (messages st1 !! pred (length (messages st1))
            = Some (pending_turn (atPending clk))) as Hk.
    { rewrite <- last_lookup, Hmsgs. apply last_snoc. }
    destruct (run_keeps_identity evs st1 _ _ Hk) as (m & Hm & Hidm & Hrm).
    exists (with_text_complete m error_text).
    rewrite replace_pending_lookup, Hm. simpl.
    rewrite bool_decide_eq_true_2 by (by rewrite Hidm).
    rewrite Hidm, Hrm. simpl. by rewrite Hid.
  - intros m. apply replace_pending_settles.
Qed.

(** The scenario of the specification, with the request failing
    after the user has gone on speaking. *)
Lemma completion_failure_scenario :
  let later := [OnResult (mkRecognitionResult "and then" false)
                  (mkResultClock (Scenarios.at_ms 5400) (Scenarios.at_ms 5400)
                     (Scenarios.at_ms 5400))] in
  let st' := onresult_resume "5000" Failed (run later Scenarios.Tutor.awaiting) in
  connectionState st' = ERROR /\
  exists m, messages st' !! 1 = Some m /\ role m = model /\
    text m = error_text /\ isComplete m = true.
Proof.
  intros later.
  destruct (completion_failure_marks_pending Scenarios.Tutor.final_result
              Scenarios.Tutor.one_ms Scenarios.Tutor.listening_session
              Scenarios.Tutor.awaiting "5000" later eq_refl)
    as (_ & Hstate & (m & Hm & _ & Hr & Ht & Hc) & _).
  split; [exact Hstate|].
  exists m. split; [exact Hm|]. split; [exact Hr|]. split; [exact Ht|exact Hc].
Defined.

(** C9, on the fallback backend. A final result handled within one
    millisecond gives the user's turn and the placeholder the same
    [id]; when the reply arrives the updater, which looks turns up by
    [id], overwrites the user's utterance as well. *)
Theorem placeholder_shares_id :
  let st := Scenarios.Tutor.awaiting in
  let st' := onresult_resume "5000" (Replied Scenarios.Tutor.reply) st in
  snd (onresult Scenarios.Tutor.final_result Scenarios.Tutor.one_ms
         Scenarios.Tutor.listening_session) = Some "5000" /\
  role <$> messages st = [user; model] /\
  id <$> messages st = ["5000"; "5000"] /\
  text <$> messages st = ["I goes to school"; thinking] /\
  text <$> messages st' = [Scenarios.Tutor.reply; Scenarios.Tutor.reply].
Proof. vm_compute. done. Qed.

End TutorClaims.

(** ** Continuations that settle after [disconnect] *)
Module SessionClaims.
Import TranscriptFacts TutorFacts.




End SessionClaims.

(** * Further properties of the code *)

(** ** The transcript reducers *)
Module TranscriptExtras.
Import Transcript TranscriptFacts TutorFacts.

Lemma commit_length now r t prev :
  length prev <= length (commitMessage now r t prev) <= S (length prev).
Proof.
  destruct (commit_cases now r t prev) as [(init & l & -> & _ & _ & ->)|[_ ->]];
    rewrite !length_app; simpl; lia.
Qed.

Lemma apply_op_length o prev :
  length prev <= length (apply_op o prev) <= S (length prev).
Proof. destruct o; [apply update_length|apply commit_length]. Qed.

Lemma apply_op_keeps_complete o prev : keeps_complete prev (apply_op o prev).
Proof. destruct o; [apply update_keeps_complete|apply commit_keeps_complete]. Qed.

Lemma apply_op_keeps_identity o prev : keeps_identity prev (apply_op o prev).
Proof. destruct o; [apply update_keeps_identity|apply commit_keeps_identity]. Qed.

(** The ids of a transcript are those it had plus, at the end, at most
    the id made from the clock reading of the call. *)
Lemma apply_op_ids o prev :
  id <$> apply_op o prev = id <$> prev \/
  id <$> apply_op o prev = (id <$> prev) ++ [toString (op_stamp o)].
Proof.
  destruct o as [now r t|now r t]; simpl.
  - destruct (update_cases now r t prev) as [(init & l & -> & _ & _ & ->)|[_ ->]].
    + left. by rewrite !fmap_app.
    + right. by rewrite fmap_app.
  - destruct (commit_cases now r t prev) as [(init & l & -> & _ & _ & ->)|[_ ->]].
    + left. by rewrite !fmap_app.
    + right. by rewrite fmap_app.
Qed.

Lemma run_ids_from_stamps ops x :
  x ∈ id <$> run ops [] -> exists o, o ∈ ops /\ x = toString (op_stamp o).
Proof.
  induction ops as [|o ops IH] using rev_ind; intros Hx.
  - by apply elem_of_nil in Hx.
  - rewrite reducers_run_snoc in Hx.
    destruct (apply_op_ids o (run ops [])) as [Heq|Heq]; rewrite Heq in Hx.
    + destruct (IH Hx) as (o' & Ho' & ->). exists o'. split; [|done].
      apply elem_of_app. by left.
    + apply elem_of_app in Hx as [Hx|Hx].
      * destruct (IH Hx) as (o' & Ho' & ->). exists o'. split; [|done].
        apply elem_of_app. by left.
      * apply list_elem_of_singleton in Hx as ->. exists o. split; [|done].
        apply elem_of_app. right. by apply list_elem_of_singleton.
Qed.

(** X1. A partial that arrives after a commit never reopens the
    committed turn: whatever the speakers and texts, it appends a new
    pending turn after the result of the commit. *)
Theorem partial_after_commit_appends (now1 now2 : Stamp) (r r' : Role)
    (t t' : string) (prev : list ChatMessage) :
  updateStreamingMessage now2 r' t' (commitMessage now1 r t prev) =
  commitMessage now1 r t prev ++ [new_turn now2 r' t' false].
Proof.
  destruct (commit_cases now1 r t prev) as [(init & l & -> & _ & _ & ->)|[_ ->]];
    unfold updateStreamingMessage; by rewrite pending_tail_complete.
Qed.

(** X2. A commit that follows a partial of the same speaker completes
    the turn of that partial in place: the transcript keeps its length,
    and the tail keeps its [id], [role] and [timestamp], carries the
    committed text and is complete. *)
Theorem commit_after_partial_in_place (now1 now2 : Stamp) (r : Role)
    (t t' : string) (prev : list ChatMessage) :
  exists init l,
    updateStreamingMessage now1 r t prev = init ++ [l] /\
    commitMessage now2 r t' (updateStreamingMessage now1 r t prev)
      = init ++ [with_text_complete l t'] /\
    length (commitMessage now2 r t' (updateStreamingMessage now1 r t prev))
      = length (updateStreamingMessage now1 r t prev).
Proof.
  destruct (update_tail now1 r t prev) as (init & l & Hupd & Hr & Hc & _).
  exists init, l. rewrite Hupd, commit_in_place by done.
  split; [done|]. split; [done|]. by rewrite !length_app.
Qed.

(** X3. The reducers only ever rewrite an incomplete tail or append.
    Whatever calls are made, the transcript does not get shorter and
    grows by at most one turn per call; every completed turn stays at
    its position unchanged; and every turn keeps its position, [id]
    and [role]. *)
Theorem reducers_append_only (ops : list Op) (prev : list ChatMessage) :
  length prev <= length (run ops prev) <= length prev + length ops /\
  keeps_complete prev (run ops prev) /\
  keeps_identity prev (run ops prev).
Proof.
  induction ops as [|o ops IH] using rev_ind.
  - simpl. split; [lia|]. split; [apply keeps_complete_refl|apply keeps_identity_refl].
  - rewrite reducers_run_snoc, length_app. simpl.
    destruct IH as (Hlen & Hc & Hi).
    pose proof (apply_op_length o (run ops prev)) as Hstep.
    split; [lia|]. split.
    + eapply keeps_complete_trans; [exact Hc|apply apply_op_keeps_complete].
    + eapply keeps_identity_trans; [exact Hi|apply apply_op_keeps_identity].
Qed.

(** X4. When the clock readings from which the calls would make ids
    are pairwise different, the ids of the turns of the transcript built
    from the empty one are pairwise different. *)
Theorem distinct_readings_distinct_ids (ops : list Op) :
  NoDup (op_stamp <$> ops) -> NoDup (id <$> run ops []).
Proof.
  induction ops as [|o ops IH] using rev_ind; intros Hnd.
  - constructor.
  - rewrite fmap_app in Hnd. apply NoDup_app in Hnd as (Hops & Hfresh & _).
    rewrite reducers_run_snoc.
    destruct (apply_op_ids o (run ops [])) as [->| ->]; [by apply IH|].
    apply NoDup_app. split; [by apply IH|]. split; [|apply NoDup_singleton].
    intros x Hx Hin. apply list_elem_of_singleton in Hin as ->.
    destruct (run_ids_from_stamps ops _ Hx) as (o' & Ho' & Heq).
    apply (inj pretty) in Heq.
    apply (Hfresh (op_stamp o')).
    + apply list_elem_of_fmap. by exists o'.
    + simpl. rewrite Heq. apply list_elem_of_singleton. done.
Qed.

(** A user partial, a user commit and a tutor partial, read at three
    different milliseconds. *)
Lemma distinct_readings_scenario :
  NoDup (id <$> run [Partial (mkStamp 1000 1000) user "Hel";
                     Commit (mkStamp 1001 1001) user "Hello";
                     Partial (mkStamp 1002 1002) model "Hi"] []).
Proof.
  apply distinct_readings_distinct_ids.
  apply (bool_decide_unpack _). vm_compute. exact I.
Defined.

End TranscriptExtras.

(** ** The streaming backend *)
Module GeminiExtras.
Import GeminiLive TranscriptFacts GeminiFacts.

Lemma only_transcript_refl st : changes_only_transcript st st.
Proof.
  exists (messages st), (currentInputTranscription st), (currentOutputTranscription st).
  by destruct st.
Qed.

Lemma only_transcript_trans a b c :
  changes_only_transcript a b -> changes_only_transcript b c ->
  changes_only_transcript a c.
Proof.
  intros (m1 & i1 & o1 & ->) (m2 & i2 & o2 & ->). by exists m2, i2, o2.
Qed.

Lemma commit_buffer_only_transcript now r st :
  changes_only_transcript st (commit_buffer now r st).
Proof.
  unfold commit_buffer. destruct r, (nonempty _);
    first [apply only_transcript_refl | eexists _, _, _; reflexivity].
Qed.

Lemma handle_output_only_transcript msg clk st :
  changes_only_transcript st (handle_output msg clk st).
Proof.
  unfold handle_output. destruct (truthy (outputText msg));
    [eexists _, _, _; reflexivity | apply only_transcript_refl].
Qed.

Lemma handle_input_only_transcript msg clk st :
  changes_only_transcript st (handle_input msg clk st).
Proof.
  unfold handle_input. destruct (truthy (inputText msg));
    [eexists _, _, _; reflexivity | apply only_transcript_refl].
Qed.

Lemma handle_turnComplete_only_transcript msg clk st :
  changes_only_transcript st (handle_turnComplete msg clk st).
Proof.
  unfold handle_turnComplete. destruct (turnComplete msg);
    [|apply only_transcript_refl].
  eapply only_transcript_trans; apply commit_buffer_only_transcript.
Qed.

(** What a message does besides changing the transcript: its audio is
    scheduled, and on interruption the sources are stopped and the
    clock is reset. *)
Lemma onmessage_shape pcmToAudioBuffer msg clk st :
  let st0 := handle_audio pcmToAudioBuffer msg clk st in
  changes_only_transcript
    (if interrupted msg then reset_clock (stop_sources st0) else st0)
    (onmessage pcmToAudioBuffer msg clk st).
Proof.
  simpl. unfold onmessage.
  generalize (handle_audio pcmToAudioBuffer msg clk st). intros st0.
  pose proof (handle_output_only_transcript msg clk st0) as H1.
  pose proof (handle_input_only_transcript msg clk (handle_output msg clk st0)) as H2.
  pose proof (handle_turnComplete_only_transcript msg clk
                (handle_input msg clk (handle_output msg clk st0))) as H3.
  pose proof (only_transcript_trans _ _ _ (only_transcript_trans _ _ _ H1 H2) H3)
    as (m & i & o & Hpre).
  unfold handle_interrupted. rewrite Hpre.
  destruct (interrupted msg); [|by exists m, i, o].
  destruct (commit_buffer_only_transcript (atInterrupt clk) model
              (reset_clock (stop_sources
                 (set_transcriptions i o (setMessages (fun _ => m) st0)))))
    as (m' & i' & o' & ->).
  by exists m', i', o'.
Qed.

Section Session.
Variable float32ToPCM16 : list float -> string.
Variable pcmToAudioBuffer : string -> AudioBuffer.

Local Abbreviation step := (step float32ToPCM16 pcmToAudioBuffer).
Local Abbreviation run := (run float32ToPCM16 pcmToAudioBuffer).
Local Abbreviation onmessage := (onmessage pcmToAudioBuffer).
Local Abbreviation handle_audio := (handle_audio pcmToAudioBuffer).

(** A hook without audio contexts and active sources stays so, and
    starts nothing, until [connect] is called. It makes no new
    processor node and does not forget the session promise; what it
    sends, it sends from the frame handler. *)
Lemma step_closed e st :
  is_connect e = false ->
  inputContextRef st = false -> outputContextRef st = false ->
  audioSourcesRef st = ∅ ->
  inputContextRef (step st e) = false /\ outputContextRef (step st e) = false /\
  audioSourcesRef (step st e) = ∅ /\
  started (step st e) = started st /\
  processorNode (step st e) = processorNode st /\
  (sessionPromiseRef st = true -> sessionPromiseRef (step st e) = true) /\
  (is_frame e = false -> sent (step st e) = sent st).
Proof.
  intros He Hin Hout Hsrc. destruct e; simpl in *; try done.
  - by destruct r.
  - unfold onopen. simpl. by rewrite Hin.
  - unfold audio_frame. destruct (processorNode st) as [proc|] eqn:Hp; [|done].
    unfold onaudioprocess. destruct (handlerMicOn proc); simpl; [|done].
    by destruct (sessionPromiseRef st) eqn:Hs; simpl.
  - pose proof (onmessage_shape pcmToAudioBuffer msg clk st) as Hshape.
    simpl in Hshape.
    assert (handle_audio msg clk st = st) as Haudio.
    { unfold GeminiLive.handle_audio. rewrite Hout.
      by destruct (truthy (base64Audio msg)). }
    rewrite Haudio in Hshape.
    destruct Hshape as (m & i & o & ->).
    destruct (interrupted msg); simpl; by rewrite ?Hsrc.
  - rewrite Hsrc. repeat split; try done. apply empty_difference_L.
Qed.

Lemma run_closed evs st :
  Forall (fun e => is_connect e = false) evs ->
  inputContextRef st = false -> outputContextRef st = false ->
  audioSourcesRef st = ∅ ->
  inputContextRef (run evs st) = false /\ outputContextRef (run evs st) = false /\
  audioSourcesRef (run evs st) = ∅ /\
  started (run evs st) = started st /\
  processorNode (run evs st) = processorNode st /\
  (sessionPromiseRef st = true -> sessionPromiseRef (run evs st) = true) /\
  (Forall (fun e => is_frame e = false) evs -> sent (run evs st) = sent st).
Proof.
  intros Hevs Hin Hout Hsrc.
  induction evs as [|e evs IH] using rev_ind; [done|].
  apply Forall_app in Hevs as [Hevs He]. apply Forall_inv in He.
  rewrite session_run_snoc.
  destruct (IH Hevs) as (Hin' & Hout' & Hsrc' & Hst & Hnode & Hsess & Hsent).
  destruct (step_closed e _ He Hin' Hout' Hsrc')
    as (? & ? & ? & Hst' & Hnode' & Hsess' & Hsent').
  rewrite Hst', Hnode'. repeat split; try done.
  - intros Hs. by apply Hsess', Hsess.
  - intros Hfr. apply Forall_app in Hfr as [Hfr Hf]. apply Forall_inv in Hf.
    by rewrite Hsent', Hsent.
Qed.

End Session.

(** X5. [disconnect] is idempotent. It leaves the hook
    [DISCONNECTED] with no contexts, processor or stream, no active
    source and the clock at zero, after stopping exactly the sources
    that were active; the transcript, the microphone switch and the
    published volume are left as they were. *)
Theorem disconnect_twice (st : State) :
  disconnect (disconnect st) = disconnect st /\
  connectionState (disconnect st) = DISCONNECTED /\
  inputContextRef (disconnect st) = false /\
  outputContextRef (disconnect st) = false /\
  scriptProcessorRef (disconnect st) = None /\
  streamRef (disconnect st) = false /\
  audioSourcesRef (disconnect st) = ∅ /\
  nextStartTimeRef (disconnect st) = 0%float /\
  stopped (disconnect st) = stopped st ++ elements (audioSourcesRef st) /\
  messages (disconnect st) = messages st /\
  isMicOn (disconnect st) = isMicOn st /\
  volume (disconnect st) = volume st.
Proof.
  split; [|done].
  unfold disconnect, stop_sources, reset_clock. simpl.
  by rewrite elements_empty, app_nil_r.
Qed.

(** X6. After [disconnect], callbacks of the old session that still
    arrive start no source: until [connect] is called again, the record
    of started sources does not change and no source is active. The
    frame handler is another matter. [disconnect] clears the ref to the
    script processor but leaves the handler on the node and the session
    promise in its ref, so a frame that the audio thread still delivers
    is handled as before: with the captured flag on, its volume is
    published and its payload is handed to the session. Nothing else
    sends: without such a frame the record of sent payloads does not
    change. *)
Theorem nothing_played_after_disconnect
    (float32ToPCM16 : list float -> string)
    (pcmToAudioBuffer : string -> AudioBuffer)
    (evs : list Event) (st : State) :
  Forall (fun e => is_connect e = false) evs ->
  let d := disconnect st in
  let st' := run float32ToPCM16 pcmToAudioBuffer evs d in
  started st' = started d /\ audioSourcesRef st' = ∅ /\
  (Forall (fun e => is_frame e = false) evs -> sent st' = sent d) /\
  (forall (p : Processor) (inputData : list float),
     processorNode st = Some p -> handlerMicOn p = true ->
     sessionPromiseRef st = true ->
     volume (audio_frame float32ToPCM16 inputData st') = rms inputData /\
     sent (audio_frame float32ToPCM16 inputData st')
     = sent st' ++ [float32ToPCM16 inputData]).
Proof.
  intros Hevs d st'.
  destruct (run_closed float32ToPCM16 pcmToAudioBuffer evs d Hevs
              eq_refl eq_refl eq_refl)
    as (_ & _ & Hsrc & Hst & Hnode & Hsess & Hsent).
  fold st' in Hsrc, Hst, Hnode, Hsess, Hsent.
  split; [exact Hst|]. split; [exact Hsrc|]. split; [exact Hsent|].
  intros p inputData Hp Hflag Hs.
  apply (audio_frame_captured_flag float32ToPCM16 inputData p st');
    [by rewrite Hnode|exact Hflag|by apply Hsess].
Qed.

(** The tutor is speaking when the user ends the session; a further
    message with audio, a frame, the microphone, [onopen], the end of a
    source and an interruption arrive afterwards. The two sources
    started before are all there is, and the one frame has been sent;
    so is the next one. *)
Lemma nothing_played_scenario :
  let d := disconnect Scenarios.Gemini.speaking in
  let st' := run Scenarios.pcm16 Scenarios.decode Scenarios.Gemini.late_events d in
  length (started st') = 2 /\ audioSourcesRef st' = ∅ /\
  volume st' = 0.5%float /\
  sent st' = [Scenarios.pcm16 Scenarios.loud_frame] /\
  sent (audio_frame Scenarios.pcm16 Scenarios.loud_frame st')
  = [Scenarios.pcm16 Scenarios.loud_frame; Scenarios.pcm16 Scenarios.loud_frame].
Proof.
  destruct (nothing_played_after_disconnect Scenarios.pcm16 Scenarios.decode
              Scenarios.Gemini.late_events Scenarios.Gemini.speaking)
    as (Hst & Hsrc & _ & Hframe).
  { repeat constructor. }
  destruct (Hframe (mkProcessor true) Scenarios.loud_frame eq_refl eq_refl eq_refl)
    as [_ Hsent].
  split; [by rewrite Hst|]. split; [exact Hsrc|]. split; [reflexivity|].
  split; [reflexivity|]. rewrite Hsent. reflexivity.
Defined.

Lemma nonempty_false s : nonempty s = false -> s = "".
Proof. by destruct s. Qed.

Lemma commit_buffer_clears now r st :
  let st' := commit_buffer now r st in
  match r with
  | user => currentInputTranscription st' = "" /\
            currentOutputTranscription st' = currentOutputTranscription st
  | model => currentOutputTranscription st' = "" /\
             currentInputTranscription st' = currentInputTranscription st
  end.
Proof.
  simpl. unfold commit_buffer.
  destruct r; destruct (nonempty _) eqn:Hne; simpl; try done;
    by rewrite (nonempty_false _ Hne).
Qed.

Lemma commit_buffer_empty now r st :
  match r with
  | user => currentInputTranscription st
  | model => currentOutputTranscription st
  end = "" ->
  commit_buffer now r st = st.
Proof. unfold commit_buffer. by intros ->. Qed.

Lemma handle_turnComplete_clears msg clk st :
  turnComplete msg = true ->
  currentInputTranscription (handle_turnComplete msg clk st) = "" /\
  currentOutputTranscription (handle_turnComplete msg clk st) = "".
Proof.
  intros Htc. unfold handle_turnComplete. rewrite Htc.
  destruct (commit_buffer_clears (atCommitInput clk) user st) as [Hi _].
  destruct (commit_buffer_clears (atCommitOutput clk) model
              (commit_buffer (atCommitInput clk) user st)) as [Ho Hi'].
  split; [by rewrite Hi', Hi|exact Ho].
Qed.

Lemma handle_interrupted_nothing_left msg clk st :
  currentOutputTranscription st = "" ->
  messages (handle_interrupted msg clk st) = messages st /\
  currentInputTranscription (handle_interrupted msg clk st)
    = currentInputTranscription st /\
  currentOutputTranscription (handle_interrupted msg clk st) = "".
Proof.
  intros Hout. unfold handle_interrupted.
  destruct (interrupted msg); [|done].
  by rewrite commit_buffer_empty by (simpl; exact Hout).
Qed.

(** X7. A message with the turn-complete flag leaves both
    transcription buffers empty, so that the next turn starts from
    nothing; when the same message is flagged as interrupted too, the
    interruption finds nothing left to commit and adds no turn. *)
Theorem turn_complete_clears (pcmToAudioBuffer : string -> AudioBuffer)
    (st : State) (msg : LiveServerMessage) (clk : MessageClock) :
  turnComplete msg = true ->
  let pre := handle_turnComplete msg clk (handle_input msg clk
               (handle_output msg clk (handle_audio pcmToAudioBuffer msg clk st))) in
  let st' := onmessage pcmToAudioBuffer msg clk st in
  currentInputTranscription st' = "" /\
  currentOutputTranscription st' = "" /\
  messages st' = messages pre.
Proof.
  intros Htc pre st'.
  destruct (handle_turnComplete_clears msg clk
              (handle_input msg clk (handle_output msg clk
                 (handle_audio pcmToAudioBuffer msg clk st))) Htc) as [Hin Hout].
  fold pre in Hin, Hout.
  destruct (handle_interrupted_nothing_left msg clk pre Hout) as (Hm & Hi & Ho).
  unfold st', onmessage. fold pre.
  split; [by rewrite Hi|]. split; [exact Ho|exact Hm].
Qed.

(** The tutor has spoken; the turn ends with both flags set. *)
Lemma turn_complete_scenario :
  let st' := onmessage Scenarios.decode Scenarios.Gemini.turn_end
               (Scenarios.Gemini.clock Scenarios.at_250ms 2100)
               Scenarios.Gemini.speaking in
  currentInputTranscription st' = "" /\ currentOutputTranscription st' = "" /\
  length (messages st') = 1.
Proof.
  destruct (turn_complete_clears Scenarios.decode Scenarios.Gemini.speaking
              Scenarios.Gemini.turn_end (Scenarios.Gemini.clock Scenarios.at_250ms 2100)
              eq_refl) as (Hin & Hout & Hmsgs).
  split; [exact Hin|]. split; [exact Hout|]. by rewrite Hmsgs.
Defined.

(** X8. The microphone switch and the frame handler do not see one
    another: switching twice gives back the state, and handling a frame
    after switching is the same as switching after handling it. *)
Theorem toggleMic_commutes_with_frames (float32ToPCM16 : list float -> string)
    (inputData : list float) (st : State) :
  toggleMic (toggleMic st) = st /\
  audio_frame float32ToPCM16 inputData (toggleMic st)
  = toggleMic (audio_frame float32ToPCM16 inputData st).
Proof.
  split.
  - destruct st. unfold toggleMic, setIsMicOn. simpl. by rewrite negb_involutive.
  - unfold audio_frame. simpl.
    destruct (processorNode st) as [proc|]; [|done].
    unfold onaudioprocess. destruct (handlerMicOn proc); simpl; [|done].
    by destruct (sessionPromiseRef st).
Qed.

Lemma playback_ok_ext st st' :
  started st' = started st -> audioSourcesRef st' = audioSourcesRef st ->
  stopped st' = stopped st -> nextStartTimeRef st' = nextStartTimeRef st ->
  playback_ok st -> playback_ok st'.
Proof. unfold playback_ok. by intros -> -> -> ->. Qed.

Lemma playback_ok_schedule pcmToAudioBuffer now data st :
  playback_ok st -> playback_ok (schedule pcmToAudioBuffer now data st).
Proof.
  intros (Hnodes & Hactive & Hstopped & Hclock).
  unfold playback_ok. simpl. rewrite length_app. simpl. repeat split.
  - intros i s Hi. apply lookup_app_Some in Hi as [Hi|[Hge Hi]]; [by apply Hnodes|].
    apply list_lookup_singleton_Some in Hi as [Hi <-]. simpl. lia.
  - intros n Hn. apply elem_of_union in Hn as [Hn|Hn].
    + apply elem_of_singleton in Hn as ->. lia.
    + specialize (Hactive n Hn). lia.
  - intros n Hn. specialize (Hstopped n Hn). lia.
  - apply FloatFacts.add_nonneg; [|apply duration_nonneg].
    by apply FloatFacts.Math_max_nonneg.
Qed.

Lemma playback_ok_stop st :
  playback_ok st -> playback_ok (reset_clock (stop_sources st)).
Proof.
  intros (Hnodes & Hactive & Hstopped & Hclock).
  unfold playback_ok. simpl. split; [done|]. split; [|split; [|done]].
  - intros n Hn. by apply elem_of_empty in Hn.
  - intros n Hn. apply elem_of_app in Hn as [Hn|Hn]; [by apply Hstopped|].
    apply Hactive. by apply elem_of_elements.
Qed.

Lemma playback_ok_step float32ToPCM16 pcmToAudioBuffer e st :
  playback_ok st -> playback_ok (step float32ToPCM16 pcmToAudioBuffer st e).
Proof.
  intros Hok. destruct e; simpl.
  - unfold connect. by destruct (nonempty (apiKey st)).
  - by destruct r.
  - unfold onopen. simpl. by destruct (_ || _).
  - unfold audio_frame. destruct (processorNode st) as [proc|]; [|done].
    unfold onaudioprocess. destruct (handlerMicOn proc); simpl; [|done].
    by destruct (sessionPromiseRef st).
  - pose proof (onmessage_shape pcmToAudioBuffer msg clk st) as Hshape.
    simpl in Hshape. destruct Hshape as (m & i & o & ->).
    assert (playback_ok (handle_audio pcmToAudioBuffer msg clk st)) as Haudio.
    { unfold handle_audio. destruct (truthy (base64Audio msg)); [|done].
      destruct (outputContextRef st); [|done]. by apply playback_ok_schedule. }
    destruct (interrupted msg).
    + by apply (playback_ok_ext _ _ eq_refl eq_refl eq_refl eq_refl
                  (playback_ok_stop _ Haudio)).
    + by apply (playback_ok_ext _ _ eq_refl eq_refl eq_refl eq_refl Haudio).
  - destruct Hok as (Hnodes & Hactive & Hstopped & Hclock).
    unfold playback_ok. simpl. split; [done|]. split; [|done].
    intros n Hn. apply elem_of_difference in Hn as [Hn _]. by apply Hactive.
  - done.
  - done.
  - done.
  - by apply (playback_ok_ext _ _ eq_refl eq_refl eq_refl eq_refl
                (playback_ok_stop _ Hok)).
Qed.

(** X9. The bookkeeping of the playback side holds in every state the
    hook can reach: the started sources are numbered in the order of
    their start, so no two share a number; every active source and
    every stopped source is one that was started; and the output clock
    is never negative. *)
Theorem playback_bookkeeping (float32ToPCM16 : list float -> string)
    (pcmToAudioBuffer : string -> AudioBuffer) (key : string)
    (evs : list Event) :
  playback_ok (run float32ToPCM16 pcmToAudioBuffer evs (initial key)).
Proof.
  induction evs as [|e evs IH] using rev_ind.
  - unfold playback_ok. simpl. split; [done|]. split; [|split; [|done]].
    + intros n Hn. by apply elem_of_empty in Hn.
    + intros n Hn. by apply elem_of_nil in Hn.
  - rewrite session_run_snoc. by apply playback_ok_step.
Qed.

Lemma handle_audio_transcript pcmToAudioBuffer msg clk st :
  let st0 := handle_audio pcmToAudioBuffer msg clk st in
  messages st0 = messages st /\
  currentInputTranscription st0 = currentInputTranscription st /\
  currentOutputTranscription st0 = currentOutputTranscription st.
Proof.
  simpl. unfold handle_audio. destruct (truthy (base64Audio msg)); [|done].
  by destruct (outputContextRef st).
Qed.

Lemma truthy_Some o t : truthy o = Some t -> nonempty t = true.
Proof.
  unfold truthy. destruct o as [s|]; [|done].
  destruct (nonempty s) eqn:Hs; [|done]. by intros [= <-].
Qed.

Lemma nonempty_append_r a b : nonempty b = true -> nonempty (a +:+ b) = true.
Proof. intros Hb. destruct a; [done|]. reflexivity. Qed.

(** X10. A message that brings a piece of the user's transcription and
    the turn-complete flag, with nothing of the tutor accumulated or
    arriving, leaves the user's turn completed at the tail with the
    accumulated text, and adds no turn of the tutor: the transcript
    grows by at most the one turn of the user. *)
Theorem user_turn_without_reply (pcmToAudioBuffer : string -> AudioBuffer)
    (st : State) (msg : LiveServerMessage) (clk : MessageClock) (t : string) :
  currentOutputTranscription st = "" ->
  truthy (outputText msg) = None ->
  truthy (inputText msg) = Some t ->
  turnComplete msg = true ->
  let st' := onmessage pcmToAudioBuffer msg clk st in
  length (messages st) <= length (messages st') <= S (length (messages st)) /\
  exists init m,
    messages st' = init ++ [m] /\ role m = user /\ isComplete m = true /\
    text m = currentInputTranscription st +:+ t.
Proof.
  intros Hbuf Hout Hin Htc st'.
  destruct (handle_audio_transcript pcmToAudioBuffer msg clk st) as (Hm0 & Hi0 & Ho0).
  set (st0 := handle_audio pcmToAudioBuffer msg clk st) in *.
  set (inp := currentInputTranscription st +:+ t).
  assert (nonempty inp = true) as Hinp.
  { apply nonempty_append_r. by eapply truthy_Some. }
  assert (handle_output msg clk st0 = st0) as Hst1.
  { unfold handle_output. by rewrite Hout. }
  set (st2 := handle_input msg clk st0).
  assert (messages st2 = Transcript.updateStreamingMessage (atInput clk) user inp
                           (messages st) /\
          currentInputTranscription st2 = inp /\
          currentOutputTranscription st2 = "") as (Hm2 & Hi2 & Ho2).
  { unfold st2, handle_input. rewrite Hin. simpl.
    by rewrite Hm0, Hi0, Ho0, Hbuf. }
  set (st3 := handle_turnComplete msg clk st2).
  assert (messages st3 = Transcript.commitMessage (atCommitInput clk) user inp
                           (messages st2) /\
          currentOutputTranscription st3 = "") as (Hm3 & Ho3).
  { unfold st3, handle_turnComplete. rewrite Htc.
    destruct (commit_buffer_clears (atCommitInput clk) user st2) as [_ Hkeep].
    destruct (commit_buffer_clears (atCommitOutput clk) model
                (commit_buffer (atCommitInput clk) user st2)) as [Hclear _].
    split; [|exact Hclear].
    rewrite commit_buffer_empty by (simpl; by rewrite Hkeep).
    unfold commit_buffer. by rewrite Hi2, Hinp. }
  destruct (handle_interrupted_nothing_left msg clk st3 Ho3) as (Hm4 & _ & _).
  assert (messages st' = messages st3) as ->.
  { unfold st', onmessage. fold st0. rewrite Hst1. exact Hm4. }
  rewrite Hm3, Hm2.
  destruct (update_tail (atInput clk) user inp (messages st))
    as (init & l & Hupd & Hr & Hc & _).
  pose proof (update_length (atInput clk) user inp (messages st)) as Hlen.
  rewrite Hupd in *. rewrite commit_in_place by done.
  split; [by rewrite length_app in *|].
  by exists init, (with_text_complete l inp).
Qed.

(** The scenario of the specification: "Hello" and the end of the turn
    with no output yet. *)
Lemma user_turn_scenario :
  let st' := onmessage Scenarios.decode Scenarios.Gemini.hello_turn
               (Scenarios.Gemini.clock Scenarios.at_0 2000) Scenarios.Gemini.opened in
  exists init m, messages st' = init ++ [m] /\ role m = user /\
    isComplete m = true /\ text m = "Hello".
Proof.
  destruct (user_turn_without_reply Scenarios.decode Scenarios.Gemini.opened
              Scenarios.Gemini.hello_turn (Scenarios.Gemini.clock Scenarios.at_0 2000) "Hello"
              eq_refl eq_refl eq_refl eq_refl) as [_ (init & m & Hm & Hr & Hc & Ht)].
  exists init, m. split; [exact Hm|]. split; [exact Hr|]. split; [exact Hc|exact Ht].
Defined.

Section Deltas.
Variable float32ToPCM16 : list float -> string.
Variable pcmToAudioBuffer : string -> AudioBuffer.

Local Abbreviation run := (run float32ToPCM16 pcmToAudioBuffer).
Local Abbreviation onmessage := (onmessage pcmToAudioBuffer).



End Deltas.



Lemma commit_buffer_length now r st :
  length (messages st) <= length (messages (commit_buffer now r st)).
Proof.
  unfold commit_buffer. destruct r, (nonempty _); simpl; try lia;
    apply TranscriptExtras.commit_length.
Qed.

Lemma onmessage_length pcmToAudioBuffer msg clk st :
  length (messages st) <= length (messages (onmessage pcmToAudioBuffer msg clk st)).
Proof.
  unfold onmessage.
  destruct (handle_audio_transcript pcmToAudioBuffer msg clk st) as (Hm0 & _ & _).
  rewrite <- Hm0. generalize (handle_audio pcmToAudioBuffer msg clk st). intros st0.
  assert (length (messages st0) <= length (messages (handle_output msg clk st0))) as H1.
  { unfold handle_output. destruct (truthy (outputText msg)); simpl; [|lia].
    apply update_length. }
  assert (forall x, length (messages x) <= length (messages (handle_input msg clk x)))
    as H2.
  { intros x. unfold handle_input. destruct (truthy (inputText msg)); simpl; [|lia].
    apply update_length. }
  assert (forall x, length (messages x)
                    <= length (messages (handle_turnComplete msg clk x))) as H3.
  { intros x. unfold handle_turnComplete. destruct (turnComplete msg); [|lia].
    etrans; [|apply commit_buffer_length]. apply commit_buffer_length. }
  assert (forall x, length (messages x)
                    <= length (messages (handle_interrupted msg clk x))) as H4.
  { intros x. unfold handle_interrupted. destruct (interrupted msg); [|lia].
    apply (commit_buffer_length _ _ (reset_clock (stop_sources x))). }
  etrans; [exact H1|]. etrans; [apply H2|]. etrans; [apply H3|]. apply H4.
Qed.

Lemma step_length float32ToPCM16 pcmToAudioBuffer e st :
  length (messages st)
  <= length (messages (step float32ToPCM16 pcmToAudioBuffer st e)).
Proof.
  destruct e; simpl; try lia.
  - unfold connect. destruct (nonempty (apiKey st)); simpl; lia.
  - destruct r; simpl; lia.
  - unfold onopen. simpl. destruct (_ || _); simpl; lia.
  - unfold audio_frame. destruct (processorNode st) as [proc|]; [|lia].
    unfold onaudioprocess. destruct (handlerMicOn proc); simpl; [|lia].
    destruct (sessionPromiseRef st); simpl; lia.
  - apply onmessage_length.
Qed.

(** X12. The streaming hook keeps its transcript across everything:
    no event, a disconnect and a later session included, makes the
    transcript shorter, and a completed turn stays at its position with
    its text for as long as the hook lives. *)
Theorem transcript_outlives_sessions (float32ToPCM16 : list float -> string)
    (pcmToAudioBuffer : string -> AudioBuffer) (evs : list Event) (st : State) :
  let st' := run float32ToPCM16 pcmToAudioBuffer evs st in
  length (messages st) <= length (messages st') /\
  Transcript.keeps_complete (messages st) (messages st').
Proof.
  simpl. split; [|apply run_keeps].
  induction evs as [|e evs IH] using rev_ind; [done|].
  rewrite session_run_snoc. etrans; [exact IH|apply step_length].
Qed.

End GeminiExtras.

(** ** The fallback backend *)
Module TutorExtras.
Import GptTutor TranscriptFacts TutorFacts.

(** X13. [disconnect] is idempotent. It leaves the hook
    [DISCONNECTED], in the cell and in the ref, with no recognition
    object, context, processor or stream and a published volume of
    zero; the transcript and the microphone switch are left as they
    were. *)
Theorem tutor_disconnect_twice (st : State) :
  disconnect (disconnect st) = disconnect st /\
  connectionState (disconnect st) = DISCONNECTED /\
  connectionStateRef (disconnect st) = DISCONNECTED /\
  recognitionRef (disconnect st) = false /\
  inputContextRef (disconnect st) = false /\
  scriptProcessorRef (disconnect st) = false /\
  streamRef (disconnect st) = false /\
  volume (disconnect st) = 0%float /\
  messages (disconnect st) = messages st /\
  isMicOn (disconnect st) = isMicOn st.
Proof.
  unfold disconnect. simpl.
  destruct (recognitionRef st) eqn:Href; simpl; rewrite ?Href; done.
Qed.

(** X14. The end of a recognition run restarts the engine only while
    the ref says [CONNECTED] and the microphone is on: then [onend]
    calls [recognition.start()], and after [disconnect] and after
    muting it changes nothing. A recognition error and a failed
    completion request set the cell to [ERROR] and leave the ref as it
    was, so in a session whose ref says [CONNECTED] a run that ends
    before the next render still restarts the engine; once that render
    has copied the cell into the ref, [onend] changes nothing. *)
Theorem restart_only_while_connected (st : State) (pendingId : string) :
  let failed := onresult_resume pendingId Failed st in
  (connectionStateRef st <> CONNECTED \/ micStateRef st = false ->
   onend st = st) /\
  onend (disconnect st) = disconnect st /\
  (isMicOn st = true -> onend (toggleMic st) = toggleMic st) /\
  (connectionStateRef st = CONNECTED -> micStateRef st = true ->
   onend st = set_recognition (recognitionRef st) true st /\
   onend (onerror st) = set_recognition (recognitionRef st) true (onerror st) /\
   onend failed = set_recognition (recognitionRef st) true failed) /\
  connectionState (onerror st) = ERROR /\
  connectionStateRef (onerror st) = connectionStateRef st /\
  connectionState failed = ERROR /\
  connectionStateRef failed = connectionStateRef st /\
  connectionStateRef (rendered st) = connectionState st /\
  onend (rendered (onerror st)) = rendered (onerror st) /\
  onend (rendered failed) = rendered failed.
Proof.
  simpl. split; [|split; [|split; [|split]]].
  - intros [Hc | Hm]; unfold onend.
    + by rewrite bool_decide_eq_false_2.
    + by rewrite Hm, andb_false_r.
  - unfold onend, disconnect. simpl. by destruct (recognitionRef st).
  - intros Hon. unfold onend, toggleMic. rewrite Hon. simpl.
    by rewrite andb_false_r.
  - intros Hc Hm. unfold onend. simpl. by rewrite Hc, Hm.
  - done.
Qed.

(** The session has settled after [onstart] and a recognition run has
    ended. The engine is restarted, also when a recognition error came
    just before; after the render that follows the error it is not, and
    neither once the user has muted. *)
Lemma restart_scenario :
  let st := Scenarios.Tutor.run_ended in
  listening st = false /\
  listening (onend st) = true /\
  listening (onend (onerror st)) = true /\
  listening (onend (rendered (onerror st))) = false /\
  listening (onend (toggleMic st)) = false.
Proof.
  intros st.
  destruct (restart_only_while_connected st "5000")
    as (_ & _ & Hmuted & Hon & _ & _ & _ & _ & _ & Hfresh & _).
  destruct (Hon eq_refl eq_refl) as (Hend & Herr & _).
  split; [reflexivity|]. split; [by rewrite Hend|]. split; [by rewrite Herr|].
  split; [by rewrite Hfresh|]. by rewrite (Hmuted eq_refl).
Defined.

(** X15. What a recognition result does to the transcript. An interim
    result leaves the user's pending turn at the tail, with the trimmed
    transcript as its text, and suspends nothing. A final result leaves
    the user's turn completed with the trimmed transcript, followed by
    the placeholder of the tutor at the tail, and suspends on the
    request with the id of the placeholder. The user's turn is added at
    most once. *)
Theorem result_shapes_transcript (ev : RecognitionResult) (clk : ResultClock)
    (st : State) :
  let st' := fst (onresult ev clk st) in
  let t := trim (transcript ev) in
  (isFinal ev = false ->
   snd (onresult ev clk st) = None /\
   length (messages st) <= length (messages st') <= S (length (messages st)) /\
   exists init m, messages st' = init ++ [m] /\
     role m = user /\ isComplete m = false /\ text m = t) /\
  (isFinal ev = true ->
   snd (onresult ev clk st) = Some (id (pending_turn (atPending clk))) /\
   S (length (messages st)) <= length (messages st') <= S (S (length (messages st))) /\
   exists init m, messages st' = init ++ [m; pending_turn (atPending clk)] /\
     role m = user /\ isComplete m = true /\ text m = t).
Proof.
  simpl. rewrite onresult_messages. simpl.
  destruct (update_tail (atUpdate clk) user (trim (transcript ev)) (messages st))
    as (init & l & Hupd & Hr & Hc & Ht).
  pose proof (update_length (atUpdate clk) user (trim (transcript ev)) (messages st))
    as Hlen.
  split; intros Hfinal; unfold onresult; rewrite Hfinal; simpl.
  - split; [done|]. split; [done|]. by exists init, l.
  - split; [done|]. rewrite Hupd in *. rewrite commit_in_place by done.
    rewrite !length_app in *. simpl in *. split; [lia|].
    exists init, (with_text_complete l (trim (transcript ev))).
    by rewrite <- (assoc_L (++)).
Qed.

(** The scenario of the specification: "I goes", here between
    white space of one, two and three bytes, then the final
    " I goes to school ". *)
Lemma result_scenario :
  let st1 := fst (onresult Scenarios.Tutor.padded_result Scenarios.Tutor.one_ms
                    Scenarios.Tutor.listening_session) in
  let st2 := fst (onresult Scenarios.Tutor.final_result Scenarios.Tutor.one_ms st1) in
  (exists init m, messages st1 = init ++ [m] /\ text m = "I goes") /\
  (exists init m, messages st2 = init ++ [m; pending_turn (Scenarios.at_ms 5000)] /\
     isComplete m = true /\ text m = "I goes to school") /\
  length (messages st2) = 2.
Proof.
  intros st1 st2.
  destruct (proj1 (result_shapes_transcript Scenarios.Tutor.padded_result
                     Scenarios.Tutor.one_ms Scenarios.Tutor.listening_session)
              eq_refl) as (_ & _ & init1 & m1 & Hm1 & _ & _ & Ht1).
  destruct (proj2 (result_shapes_transcript Scenarios.Tutor.final_result
                     Scenarios.Tutor.one_ms st1) eq_refl)
    as (_ & _ & init2 & m2 & Hm2 & _ & Hc2 & Ht2).
  split; [by exists init1, m1|]. split; [by exists init2, m2|]. reflexivity.
Defined.

Lemma step_spoken e st :
  spoken (step st e) = spoken st ++ replies [e].
Proof.
  destruct e; simpl; rewrite ?app_nil_r; try done.
  - unfold connect. destruct (nonempty (apiKey st)); [|done]. by destruct supported.
  - unfold connect_resume. destruct r; [|done]. simpl.
    by destruct (inputContextRef st).
  - unfold onresult. by destruct (isFinal ev).
  - destruct c; simpl; [done|by rewrite app_nil_r].
  - unfold onend. by destruct (_ && _).
  - unfold audio_frame. destruct (processorNode st); [|done].
    unfold onaudioprocess. by destruct (negb _).
  - unfold toggleMic, recognition_stop, recognition_start.
    destruct (isMicOn st); simpl.
    + by destruct (recognitionRef st).
    + destruct (bool_decide _); [|done]. by destruct (recognitionRef st).
  - unfold disconnect. simpl. by destruct (recognitionRef st).
Qed.

(** X16. The hook speaks the replies and nothing else: after any
    events, the texts given to speech synthesis are those given before
    followed by the reply of each completion request that succeeded, in
    the order in which the requests settled. A failed request, and the
    error text that it writes, is never spoken. *)
Theorem speaks_exactly_the_replies (evs : list Event) (st : State) :
  spoken (run evs st) = spoken st ++ replies evs.
Proof.
  induction evs as [|e evs IH] using rev_ind.
  - simpl. by rewrite app_nil_r.
  - rewrite tutor_run_snoc, step_spoken, IH.
    unfold replies. rewrite omap_app. by rewrite (assoc_L (++)).
Qed.

(** X17. The history sent with a completion request starts with the
    system instruction, ends with the new utterance of the user, and
    has in between one entry for each turn of the transcript it was
    built from, in the order of the turns, with the text of the turn
    and with the tutor's turns in the role of the assistant. *)
Theorem history_follows_transcript (msgs : list ChatMessage) (newUserText : string) :
  let history := History.buildHistory msgs newUserText in
  length history = S (S (length msgs)) /\
  head history = Some (History.mkHistoryMessage History.system
                         History.SYSTEM_INSTRUCTION) /\
  last history = Some (History.mkHistoryMessage History.user_role newUserText) /\
  forall i, history !! S i =
    if decide (i < length msgs)
    then (fun msg => History.mkHistoryMessage
                       (match role msg with
                        | user => History.user_role
                        | model => History.assistant
                        end) (text msg)) <$> msgs !! i
    else if decide (i = length msgs)
         then Some (History.mkHistoryMessage History.user_role newUserText)
         else None.
Proof.
  assert (forall h, foldl (fun h msg =>
                      h ++ [History.mkHistoryMessage (History.entry_role msg) (text msg)])
                    h msgs
                    = h ++ ((fun msg => History.mkHistoryMessage
                                          (History.entry_role msg) (text msg)) <$> msgs))
    as Hfold.
  { induction msgs as [|msg msgs IH]; intros h; simpl; [by rewrite app_nil_r|].
    by rewrite IH, <- (assoc_L (++)). }
  simpl. unfold History.buildHistory. rewrite Hfold.
  split; [rewrite !length_app, length_fmap; simpl; lia|].
  split; [done|]. split; [apply last_snoc|].
  intros i. simpl. destruct (decide (i < length msgs)) as [Hlt|Hge].
  - rewrite lookup_app_l by (by rewrite length_fmap).
    by rewrite list_lookup_fmap.
  - rewrite lookup_app_r by (rewrite length_fmap; lia).
    rewrite length_fmap. destruct (decide (i = length msgs)) as [->|Hne].
    + by rewrite Nat.sub_diag.
    + destruct (i - length msgs) as [|n] eqn:Hn; [lia|done].
Qed.

(** X18. Muting and unmuting a connected session that holds a
    recognition object gives back the microphone switch, in the cell and
    in the ref, with the engine listening again and a published volume
    of zero until the next frame; in between the engine is stopped. *)
Theorem mute_then_unmute_resumes (st : State) :
  isMicOn st = true -> recognitionRef st = true ->
  connectionState st = CONNECTED ->
  listening (toggleMic st) = false /\
  isMicOn (toggleMic (toggleMic st)) = true /\
  micStateRef (toggleMic (toggleMic st)) = true /\
  listening (toggleMic (toggleMic st)) = true /\
  volume (toggleMic (toggleMic st)) = 0%float.
Proof.
  intros Hon Href Hc.
  unfold toggleMic, recognition_stop, recognition_start.
  rewrite Hon, Href. simpl. by rewrite Hc.
Qed.

Lemma mute_then_unmute_scenario :
  listening (toggleMic (toggleMic Scenarios.Tutor.listening_session)) = true.
Proof.
  by destruct (mute_then_unmute_resumes Scenarios.Tutor.listening_session
                 eq_refl eq_refl eq_refl) as (_ & _ & _ & Hl & _).
Defined.

Lemma frames_while_muted frames st :
  micStateRef st = false -> volume st = 0%float ->
  let st' := run (AudioProcess <$> frames) st in
  volume st' = 0%float /\ micStateRef st' = false /\
  isMicOn st' = isMicOn st /\ listening st' = listening st.
Proof.
  revert st. induction frames as [|f frames IH]; intros st Hm Hv; [done|].
  change (run (AudioProcess <$> f :: frames) st)
    with (run (AudioProcess <$> frames) (audio_frame f st)).
  assert (volume (audio_frame f st) = 0%float /\
          micStateRef (audio_frame f st) = false /\
          isMicOn (audio_frame f st) = isMicOn st /\
          listening (audio_frame f st) = listening st) as (Hv' & Hm' & Hi' & Hl').
  { unfold audio_frame, onaudioprocess. rewrite Hm.
    by destruct (processorNode st). }
  destruct (IH _ Hm' Hv') as (Hv2 & Hm2 & Hi2 & Hl2). cbv zeta in *.
  split; [exact Hv2|]. split; [exact Hm2|].
  split; [by rewrite Hi2|by rewrite Hl2].
Qed.

(** X19. In this hook muting holds for every frame: once the user has
    muted, however many frames the audio thread delivers, the published
    volume is zero after each of them, the microphone stays off, and the
    recognition engine, if there is one, stays stopped. *)
Theorem muted_frames_publish_zero (frames : list (list float)) (st : State) :
  isMicOn st = true ->
  let st' := run (ToggleMic :: (AudioProcess <$> frames)) st in
  volume st' = 0%float /\ isMicOn st' = false /\ micStateRef st' = false /\
  listening st' = if recognitionRef st then false else listening st.
Proof.
  intros Hon.
  change (run (ToggleMic :: (AudioProcess <$> frames)) st)
    with (run (AudioProcess <$> frames) (toggleMic st)).
  assert (volume (toggleMic st) = 0%float /\ micStateRef (toggleMic st) = false /\
          isMicOn (toggleMic st) = false /\
          listening (toggleMic st) = if recognitionRef st then false else listening st)
    as (Hv & Hm & Hi & Hl).
  { unfold toggleMic, recognition_stop. rewrite Hon. simpl.
    by destruct (recognitionRef st). }
  destruct (frames_while_muted frames (toggleMic st) Hm Hv) as (Hv' & Hm' & Hi' & Hl').
  cbv zeta in *.
  split; [exact Hv'|]. split; [by rewrite Hi'|]. split; [exact Hm'|by rewrite Hl'].
Qed.

Lemma muted_frames_scenario :
  let st' := run (ToggleMic :: (AudioProcess <$> Scenarios.Tutor.frames))
               Scenarios.Tutor.listening_session in
  volume st' = 0%float /\ listening st' = false.
Proof.
  destruct (muted_frames_publish_zero Scenarios.Tutor.frames
              Scenarios.Tutor.listening_session eq_refl) as (Hv & _ & _ & Hl).
  split; [exact Hv|exact Hl].
Defined.

Lemma keeps_identity_length old new :
  Transcript.keeps_identity old new -> length old <= length new.
Proof.
  intros Hkeep. destruct (last old) as [m|] eqn:Hlast.
  - rewrite last_lookup in Hlast.
    destruct (Hkeep _ _ Hlast) as (m' & Hm' & _).
    apply lookup_lt_Some in Hm'. apply lookup_lt_Some in Hlast. lia.
  - apply last_None in Hlast as ->. simpl. lia.
Qed.

(** X20. In the fallback hook every turn keeps its place: whatever
    events arrive, a disconnect and a later session included, the
    transcript does not get shorter, and each turn stays at its
    position with its [id] and its [role]. *)
Theorem turns_keep_their_place (evs : list Event) (st : State) :
  let st' := run evs st in
  length (messages st) <= length (messages st') /\
  Transcript.keeps_identity (messages st) (messages st').
Proof.
  simpl. pose proof (run_keeps_identity evs st) as Hkeep.
  split; [by apply keeps_identity_length|exact Hkeep].
Qed.

(** X21. A final recognition result appends the placeholder and
    suspends on the completion request. Whatever the hook does in
    between, when the request brings a reply the placeholder, still at
    its position and still the tutor's, is complete with the reply as
    its text, the reply is the last text given to speech synthesis, and
    the connection state is what it was before the reply. *)
Theorem completion_reply_fills_pending (ev : RecognitionResult)
    (clk : ResultClock) (st st1 : State) (pendingId completion : string)
    (evs : list Event) :
  onresult ev clk st = (st1, Some pendingId) ->
  let st2 := run evs st1 in
  let st' := onresult_resume pendingId (Replied completion) st2 in
  connectionState st' = connectionState st2 /\
  last (spoken st') = Some completion /\
  exists m, messages st' !! pred (length (messages st1)) = Some m /\
    id m = pendingId /\ role m = model /\
    text m = completion /\ isComplete m = true.
Proof.
  intros Hres. simpl.
  assert (messages st1 = messages (fst (onresult ev clk st))) as Hmsgs
    by by rewrite Hres.
  rewrite onresult_messages in Hmsgs. simpl in Hmsgs.
  unfold onresult in Hres. destruct (isFinal ev); [|done].
  injection Hres as _ Hid.
  split; [done|]. split; [apply last_snoc|].
  assert (messages st1 !! pred (length (messages st1))
          = Some (pending_turn (atPending clk))) as Hk.
  { rewrite <- last_lookup, Hmsgs. apply last_snoc. }
  destruct (run_keeps_identity evs st1 _ _ Hk) as (m & Hm & Hidm & Hrm).
  exists (with_text_complete m completion).
  rewrite replace_pending_lookup, Hm. simpl.
  rewrite bool_decide_eq_true_2 by (by rewrite Hidm).
  rewrite Hidm, Hrm. simpl. by rewrite Hid.
Qed.

(** The scenario of the specification: the reply to "I goes to school"
    arrives while the user has gone on speaking. *)
Lemma completion_reply_arrives :
  let later := [OnResult (mkRecognitionResult "and then" false)
                  (mkResultClock (Scenarios.at_ms 5400) (Scenarios.at_ms 5400)
                     (Scenarios.at_ms 5400))] in
  let st' := onresult_resume "5000" (Replied Scenarios.Tutor.reply)
               (run later Scenarios.Tutor.awaiting) in
  connectionState st' = CONNECTED /\
  spoken st' = [Scenarios.Tutor.reply] /\
  exists m, messages st' !! 1 = Some m /\ role m = model /\
    text m = Scenarios.Tutor.reply /\ isComplete m = true.
Proof.
  intros later.
  destruct (completion_reply_fills_pending Scenarios.Tutor.final_result
              Scenarios.Tutor.one_ms Scenarios.Tutor.listening_session
              Scenarios.Tutor.awaiting "5000" Scenarios.Tutor.reply later eq_refl)
    as (Hstate & _ & m & Hm & _ & Hr & Ht & Hc).
  split; [exact Hstate|]. split; [reflexivity|].
  exists m. split; [exact Hm|]. split; [exact Hr|]. split; [exact Ht|exact Hc].
Defined.

End TutorExtras.

(** ** Both hooks *)
Module SessionExtras.

Lemma gemini_user_step_without_key float32ToPCM16 pcmToAudioBuffer e st :
  GeminiLive.user_command e = true ->
  GeminiLive.apiKey st = "" ->
  GeminiLive.connectionState st = DISCONNECTED ->
  GeminiLive.inputContextRef st = false -> GeminiLive.outputContextRef st = false ->
  GeminiLive.streamRef st = false -> GeminiLive.sessionPromiseRef st = false ->
  let st' := GeminiLive.step float32ToPCM16 pcmToAudioBuffer st e in
  GeminiLive.apiKey st' = "" /\
  GeminiLive.connectionState st' = DISCONNECTED /\
  GeminiLive.inputContextRef st' = false /\ GeminiLive.outputContextRef st' = false /\
  GeminiLive.streamRef st' = false /\ GeminiLive.sessionPromiseRef st' = false /\
  GeminiLive.messages st' = GeminiLive.messages st.
Proof.
  intros He Hkey Hc Hin Hout Hs Hp. destruct e; try done; simpl.
  unfold GeminiLive.connect. by rewrite Hkey.
Qed.

Lemma tutor_user_step_without_key e st :
  GptTutor.user_command e = true ->
  GptTutor.apiKey st = "" ->
  GptTutor.connectionState st = DISCONNECTED ->
  GptTutor.inputContextRef st = false -> GptTutor.streamRef st = false ->
  GptTutor.recognitionRef st = false ->
  let st' := GptTutor.step st e in
  GptTutor.apiKey st' = "" /\
  GptTutor.connectionState st' = DISCONNECTED /\
  GptTutor.inputContextRef st' = false /\ GptTutor.streamRef st' = false /\
  GptTutor.recognitionRef st' = false /\
  GptTutor.messages st' = GptTutor.messages st.
Proof.
  intros He Hkey Hc Hin Hs Hr. destruct e; try done; simpl.
  - unfold GptTutor.connect. by rewrite Hkey.
  - unfold GptTutor.toggleMic, GptTutor.recognition_stop, GptTutor.recognition_start.
    rewrite Hr, Hc. simpl. by destruct (GptTutor.isMicOn st).
  - unfold GptTutor.disconnect. simpl. by rewrite Hr.
Qed.

(** X22. Without an API key no command of the user starts a session:
    whatever sequence of connect, toggle-microphone and disconnect
    commands either hook receives from its initial state, it stays
    [DISCONNECTED], acquires no audio context, stream, session or
    recognition object, and its transcript stays empty. *)
Theorem no_key_no_session (float32ToPCM16 : list float -> string)
    (pcmToAudioBuffer : string -> GeminiLive.AudioBuffer)
    (gemini_cmds : list GeminiLive.Event) (tutor_cmds : list GptTutor.Event) :
  Forall (fun e => GeminiLive.user_command e = true) gemini_cmds ->
  Forall (fun e => GptTutor.user_command e = true) tutor_cmds ->
  let g := GeminiLive.run float32ToPCM16 pcmToAudioBuffer gemini_cmds
             (GeminiLive.initial "") in
  let t := GptTutor.run tutor_cmds (GptTutor.initial "") in
  (GeminiLive.connectionState g = DISCONNECTED /\
   GeminiLive.inputContextRef g = false /\ GeminiLive.outputContextRef g = false /\
   GeminiLive.streamRef g = false /\ GeminiLive.sessionPromiseRef g = false /\
   GeminiLive.messages g = []) /\
  (GptTutor.connectionState t = DISCONNECTED /\
   GptTutor.inputContextRef t = false /\ GptTutor.streamRef t = false /\
   GptTutor.recognitionRef t = false /\
   GptTutor.messages t = []).
Proof.
  intros Hg Ht. split.
  - assert (GeminiLive.apiKey
              (GeminiLive.run float32ToPCM16 pcmToAudioBuffer gemini_cmds
                 (GeminiLive.initial "")) = "" /\
            GeminiLive.connectionState
              (GeminiLive.run float32ToPCM16 pcmToAudioBuffer gemini_cmds
                 (GeminiLive.initial "")) = DISCONNECTED /\
            GeminiLive.inputContextRef
              (GeminiLive.run float32ToPCM16 pcmToAudioBuffer gemini_cmds
                 (GeminiLive.initial "")) = false /\
            GeminiLive.outputContextRef
              (GeminiLive.run float32ToPCM16 pcmToAudioBuffer gemini_cmds
                 (GeminiLive.initial "")) = false /\
            GeminiLive.streamRef
              (GeminiLive.run float32ToPCM16 pcmToAudioBuffer gemini_cmds
                 (GeminiLive.initial "")) = false /\
            GeminiLive.sessionPromiseRef
              (GeminiLive.run float32ToPCM16 pcmToAudioBuffer gemini_cmds
                 (GeminiLive.initial "")) = false /\
            GeminiLive.messages
              (GeminiLive.run float32ToPCM16 pcmToAudioBuffer gemini_cmds
                 (GeminiLive.initial "")) = []) as Hinv.
    { induction gemini_cmds as [|e evs IH] using rev_ind; [done|].
      apply Forall_app in Hg as [Hg He]. apply Forall_inv in He.
      rewrite GeminiFacts.session_run_snoc.
      destruct (IH Hg) as (Hk & Hc & Hi & Ho & Hs & Hp & Hm).
      destruct (gemini_user_step_without_key float32ToPCM16 pcmToAudioBuffer e _
                  He Hk Hc Hi Ho Hs Hp) as (? & ? & ? & ? & ? & ? & Hm').
      cbv zeta in Hm'. by rewrite Hm', Hm. }
    by destruct Hinv as (_ & ? & ? & ? & ? & ? & ?).
  - assert (GptTutor.apiKey (GptTutor.run tutor_cmds (GptTutor.initial "")) = "" /\
            GptTutor.connectionState (GptTutor.run tutor_cmds (GptTutor.initial ""))
              = DISCONNECTED /\
            GptTutor.inputContextRef (GptTutor.run tutor_cmds (GptTutor.initial ""))
              = false /\
            GptTutor.streamRef (GptTutor.run tutor_cmds (GptTutor.initial ""))
              = false /\
            GptTutor.recognitionRef (GptTutor.run tutor_cmds (GptTutor.initial ""))
              = false /\
            GptTutor.messages (GptTutor.run tutor_cmds (GptTutor.initial "")) = [])
      as Hinv.
    { induction tutor_cmds as [|e evs IH] using rev_ind; [done|].
      apply Forall_app in Ht as [Ht He]. apply Forall_inv in He.
      rewrite TutorFacts.tutor_run_snoc.
      destruct (IH Ht) as (Hk & Hc & Hi & Hs & Hr & Hm).
      destruct (tutor_user_step_without_key e _ He Hk Hc Hi Hs Hr)
        as (? & ? & ? & ? & ? & Hm').
      cbv zeta in Hm'. by rewrite Hm', Hm. }
    by destruct Hinv as (_ & ? & ? & ? & ? & ?).
Qed.

(** The user presses the buttons without having given a key. *)
Lemma no_key_scenario :
  GeminiLive.connectionState
    (GeminiLive.run Scenarios.pcm16 Scenarios.decode
       [GeminiLive.Connect; GeminiLive.ToggleMic; GeminiLive.Connect;
        GeminiLive.Disconnect] (GeminiLive.initial "")) = DISCONNECTED /\
  GptTutor.connectionState
    (GptTutor.run [GptTutor.Connect true; GptTutor.ToggleMic;
                   GptTutor.Connect false; GptTutor.Disconnect]
       (GptTutor.initial "")) = DISCONNECTED.
Proof.
  destruct (no_key_no_session Scenarios.pcm16 Scenarios.decode
              [GeminiLive.Connect; GeminiLive.ToggleMic; GeminiLive.Connect;
               GeminiLive.Disconnect]
              [GptTutor.Connect true; GptTutor.ToggleMic;
               GptTutor.Connect false; GptTutor.Disconnect])
    as [(Hg & _) (Ht & _)].
  { repeat constructor. }
  { repeat constructor. }
  split; [exact Hg|exact Ht].
Defined.

(** X23. How a call of [connect] fails. When the browser has no
    speech recognition the fallback hook goes to [ERROR] at once,
    suspends nothing and makes no audio context. When the microphone is
    denied either hook goes to [ERROR] without a stream, a processor, a
    session or a recognition object, but still holds the audio contexts
    that [connect] made before asking for the microphone; [disconnect]
    then closes them and gives a [DISCONNECTED] hook from which
    [connect] can be called again. *)
Theorem failed_connect_ends_in_error (g : GeminiLive.State) (t : GptTutor.State) :
  nonempty (GeminiLive.apiKey g) = true ->
  nonempty (GptTutor.apiKey t) = true ->
  GeminiLive.streamRef g = false -> GeminiLive.scriptProcessorRef g = None ->
  GeminiLive.sessionPromiseRef g = false ->
  GptTutor.inputContextRef t = false -> GptTutor.streamRef t = false ->
  GptTutor.scriptProcessorRef t = false -> GptTutor.recognitionRef t = false ->
  let unsupported := GptTutor.connect false t in
  let t1 := GptTutor.connect true t in
  let t2 := GptTutor.connect_resume MicDenied (fst t1) in
  let g1 := GeminiLive.connect g in
  let g2 := GeminiLive.connect_resume (GeminiLive.mkConnectEnv (GeminiLive.isMicOn g))
              MicDenied (fst g1) in
  (snd unsupported = false /\
   GptTutor.connectionState (fst unsupported) = ERROR /\
   GptTutor.inputContextRef (fst unsupported) = false) /\
  (snd t1 = true /\ GptTutor.connectionState (fst t1) = CONNECTING /\
   GptTutor.connectionState t2 = ERROR /\
   GptTutor.inputContextRef t2 = true /\
   GptTutor.streamRef t2 = false /\ GptTutor.scriptProcessorRef t2 = false /\
   GptTutor.recognitionRef t2 = false /\
   GptTutor.connectionState (GptTutor.disconnect t2) = DISCONNECTED /\
   GptTutor.inputContextRef (GptTutor.disconnect t2) = false) /\
  (snd g1 = Some (GeminiLive.mkConnectEnv (GeminiLive.isMicOn g)) /\
   GeminiLive.connectionState (fst g1) = CONNECTING /\
   GeminiLive.connectionState g2 = ERROR /\
   GeminiLive.inputContextRef g2 = true /\ GeminiLive.outputContextRef g2 = true /\
   GeminiLive.streamRef g2 = false /\ GeminiLive.scriptProcessorRef g2 = None /\
   GeminiLive.sessionPromiseRef g2 = false /\
   GeminiLive.connectionState (GeminiLive.disconnect g2) = DISCONNECTED /\
   GeminiLive.inputContextRef (GeminiLive.disconnect g2) = false /\
   GeminiLive.outputContextRef (GeminiLive.disconnect g2) = false).
Proof.
  intros Hgk Htk Hgs Hgp Hgse Hti Hts Htp Htr. simpl.
  unfold GptTutor.connect, GeminiLive.connect. rewrite Hgk, Htk. simpl.
  unfold GptTutor.disconnect. simpl. by rewrite Hti, Hts, Htp, Htr, Hgs, Hgp, Hgse.
Qed.

(** Both hooks with a key, in their initial state. *)
Lemma failed_connect_scenario :
  GptTutor.connectionState
    (GptTutor.connect_resume MicDenied
       (fst (GptTutor.connect true (GptTutor.initial "key")))) = ERROR /\
  GeminiLive.connectionState
    (GeminiLive.connect_resume (GeminiLive.mkConnectEnv true) MicDenied
       (fst (GeminiLive.connect (GeminiLive.initial "key")))) = ERROR.
Proof.
  destruct (failed_connect_ends_in_error (GeminiLive.initial "key")
              (GptTutor.initial "key") eq_refl eq_refl eq_refl eq_refl eq_refl
              eq_refl eq_refl eq_refl eq_refl)
    as (_ & (_ & _ & Ht & _) & (_ & _ & Hg & _)).
  split; [exact Ht|exact Hg].
Defined.

End SessionExtras.
